(** * security_audit.py: the staged-content auditor

    A shallow embedding of [src/security_audit.py] (a git pre-commit hook that
    scans the staged content of every staged file for two secret patterns)
    together with the properties of it that the specification states.

    Layout:
    - [PyStr]   Python [str] values as sequences of code points, with
                [str.strip()] and [str.split('\n')];
    - [Re]      the fragment of Python's [re] that the two patterns use,
                with an executable matcher and its declarative semantics;
    - [Audit]   [check_staged_files] and the [__main__] block, written in a
                small state-and-exception monad over the calls made to
                [subprocess.run] and the lines printed;
    - the words the specification uses, the lemmas on the matcher, the
      patterns and the runs, and then the properties of the audit, one
      theorem per claim of the specification.

    What the model takes from the outside: the version-control tool is a
    function from the command line to what [subprocess.run] does with it,
    a [CompletedProcess] or an exception; and the standard output is a
    function from a line to what [print] does with it, nothing when the
    line is written and an exception when it is not.  An exception is an
    instance of [Exception], which the two handlers catch, or not
    ([KeyboardInterrupt]), and then they let it through. *)

From Stdlib Require Import Ascii String List NArith ZArith Bool Lia.
Import ListNotations.
Open Scope N_scope.
Open Scope list_scope.

Set Implicit Arguments.

(* ================================================================== *)
(** * Python strings *)
(* ================================================================== *)

Module PyStr.

(** A Python [str] is a sequence of Unicode code points. *)
Definition char := N.
Definition str := list char.

(** Code point of an ASCII character, and a [str] written as a literal. *)
Definition cp (a : ascii) : char := N_of_ascii a.
Definition lit (s : string) : str := map cp (list_ascii_of_string s).
Arguments cp a%_char.
Arguments lit s%_string.

Definition LF : char := 10.        (* '\n' *)
Definition squote : char := 39.    (* the single quote *)
Definition dquote : char := 34.    (* the double quote *)

(** [str.isspace] on one code point: the characters that [str.strip()]
    removes when it is called without an argument. *)
Definition isspace (c : char) : bool :=
  ((9 <=? c) && (c <=? 13)) || ((28 <=? c) && (c <=? 32))
  || (c =? 133) || (c =? 160) || (c =? 5760)
  || ((8192 <=? c) && (c <=? 8202))
  || (c =? 8232) || (c =? 8233) || (c =? 8239) || (c =? 8287) || (c =? 12288).

Fixpoint lstrip (s : str) : str :=
  match s with
  | [] => []
  | c :: s' => if isspace c then lstrip s' else s
  end.

Definition rstrip (s : str) : str := rev (lstrip (rev s)).

(** [s.strip()] *)
Definition strip (s : str) : str := rstrip (lstrip s).

(** [s.split('\n')]: always at least one field; [''.split('\n') = ['']]. *)
Fixpoint split_lf (s : str) : list str :=
  match s with
  | [] => [[]]
  | c :: s' =>
      if c =? LF then [] :: split_lf s'
      else match split_lf s' with
           | [] => [[c]]
           | f :: fs => (c :: f) :: fs
           end
  end.

(** Truth value of a [str]: the empty string is falsy. *)
Definition truthy (s : str) : bool :=
  match s with [] => false | _ :: _ => true end.

End PyStr.
Import PyStr.

(* ================================================================== *)
(** * The fragment of [re] used by the two patterns *)
(* ================================================================== *)

Module Re.

(** Regular expressions over code points.  A character class is kept as
    its membership test. *)
Inductive regex : Type :=
| Void
| Eps
| Class (p : char -> bool)
| Cat (r1 r2 : regex)
| Alt (r1 r2 : regex)
| Star (r : regex).

(** The strings a pattern matches in full. *)
Inductive lang : regex -> str -> Prop :=
| L_eps : lang Eps []
| L_class p c : p c = true -> lang (Class p) [c]
| L_cat r1 r2 s1 s2 : lang r1 s1 -> lang r2 s2 -> lang (Cat r1 r2) (s1 ++ s2)
| L_alt_l r1 r2 s : lang r1 s -> lang (Alt r1 r2) s
| L_alt_r r1 r2 s : lang r2 s -> lang (Alt r1 r2) s
| L_star_nil r : lang (Star r) []
| L_star_app r s1 s2 : lang r s1 -> lang (Star r) s2 -> lang (Star r) (s1 ++ s2).

(** ** An executable matcher by derivatives *)

Fixpoint nullable (r : regex) : bool :=
  match r with
  | Void => false
  | Eps => true
  | Class _ => false
  | Cat r1 r2 => nullable r1 && nullable r2
  | Alt r1 r2 => nullable r1 || nullable r2
  | Star _ => true
  end.

(** Constructors that drop dead branches, so that derivatives stay small. *)
Definition cat (r1 r2 : regex) : regex :=
  match r1, r2 with
  | Void, _ => Void
  | _, Void => Void
  | Eps, _ => r2
  | _, _ => Cat r1 r2
  end.

Definition alt (r1 r2 : regex) : regex :=
  match r1, r2 with
  | Void, _ => r2
  | _, Void => r1
  | _, _ => Alt r1 r2
  end.

Fixpoint deriv (c : char) (r : regex) : regex :=
  match r with
  | Void => Void
  | Eps => Void
  | Class p => if p c then Eps else Void
  | Cat r1 r2 =>
      if nullable r1 then alt (cat (deriv c r1) r2) (deriv c r2)
      else cat (deriv c r1) r2
  | Alt r1 r2 => alt (deriv c r1) (deriv c r2)
  | Star r1 => cat (deriv c r1) (Star r1)
  end.

(** [re.match]: does some prefix of [s] match [r]? *)
Fixpoint prefix_match (r : regex) (s : str) : bool :=
  nullable r ||
  match s with
  | [] => false
  | c :: s' => prefix_match (deriv c r) s'
  end.

(** [re.search(r, s)] as a truth value: the start positions are tried from
    left to right; the result is a match object (truthy) when one of them
    succeeds and [None] otherwise. *)
Fixpoint search (r : regex) (s : str) : bool :=
  prefix_match r s ||
  match s with
  | [] => false
  | _ :: s' => search r s'
  end.

(** ** Pattern syntax *)

(** An ordinary character. *)
Definition chr (c : char) : regex := Class (N.eqb c).

(** [.] without [re.DOTALL]: anything but a line feed. *)
Definition not_lf (c : char) : bool := negb (c =? LF).
Definition dot : regex := Class not_lf.

(** [r{n,}] *)
Fixpoint at_least (n : nat) (r : regex) : regex :=
  match n with
  | O => Star r
  | S n' => Cat r (at_least n' r)
  end.

(** A lower-case ASCII letter [l] of a pattern compiled with
    [re.IGNORECASE] matches [l], its upper-case form and, for [s], the
    long s U+017F that Unicode case folding identifies with it. *)
Definition ignorecase_eq (l c : char) : bool :=
  (c =? l) || (c =? l - 32) || ((l =? cp "s") && (c =? 383)).

Fixpoint word_ci (w : str) : regex :=
  match w with
  | [] => Eps
  | l :: w' => Cat (Class (ignorecase_eq l)) (word_ci w')
  end.

(** [[a-zA-Z0-9]] *)
Definition in_range (lo hi c : char) : bool := (lo <=? c) && (c <=? hi).
Definition alnum (c : char) : bool :=
  in_range (cp "a") (cp "z") c || in_range (cp "A") (cp "Z") c
  || in_range (cp "0") (cp "9") c.

(** The class of the two quote characters, and its negation. *)
Definition is_quote (c : char) : bool := (c =? squote) || (c =? dquote).
Definition non_quote (c : char) : bool := negb (is_quote c).

(** The pattern of Rule A: [sk-[a-zA-Z0-9]{20,}] *)
Definition api_key_re : regex :=
  Cat (chr (cp "s")) (Cat (chr (cp "k")) (Cat (chr (cp "-"))
    (at_least 20 (Class alnum)))).

(** The pattern of Rule B: [password], [.*], [=], [.*], a quote
    character, eight or more characters that are not quote characters, a
    quote character; compiled with [re.IGNORECASE].  The flag changes
    nothing for [=], the quotes, [.] and the negated class. *)
Definition password_re : regex :=
  Cat (word_ci (lit "password"))
    (Cat (Star dot) (Cat (chr (cp "="))
      (Cat (Star dot) (Cat (Class is_quote)
        (Cat (at_least 8 (Class non_quote)) (Class is_quote)))))).

End Re.
Import Re.

(* ================================================================== *)
(** * The audit *)
(* ================================================================== *)

Module Audit.

(** What [subprocess.run(argv, capture_output=True, text=True)] returns:
    the exit status of the child and its decoded standard output.  The
    call is made without [check=True], so a non-zero status raises
    nothing. *)
Record CompletedProcess : Type :=
  { returncode : Z; stdout : str }.

(** A raised exception, with its text [str(e)].  [Exception] stands for
    the instances of the class [Exception] (the command cannot be started,
    some output is not valid text, a line cannot be encoded for the
    standard output, ...), which [except Exception] catches;
    [BaseException] for the others ([KeyboardInterrupt], [SystemExit]),
    which it lets through. *)
Inductive exn : Type :=
| Exception (text : str)
| BaseException (text : str).

Definition message (e : exn) : str :=
  match e with
  | Exception text => text
  | BaseException text => text
  end.

Definition catchable (e : exn) : bool :=
  match e with
  | Exception _ => true
  | BaseException _ => false
  end.

Inductive result (A : Type) : Type :=
| Return (a : A)
| Raise (e : exn).
Arguments Return {A} a.
Arguments Raise {A} e.

Definition argv := list str.

(** The observable effects of a run: the commands handed to
    [subprocess.run] and the lines written by [print], both oldest
    first. *)
Record world : Type :=
  { calls : list argv; printed : list str }.

Definition fresh : world := {| calls := []; printed := [] |}.

Definition log_call (a : argv) (w : world) : world :=
  {| calls := calls w ++ [a]; printed := printed w |}.

Definition log_line (s : str) (w : world) : world :=
  {| calls := calls w; printed := printed w ++ [s] |}.

(** Computations that change the world and return or raise. *)
Definition M (A : Type) : Type := world -> result A * world.

Definition ret {A} (a : A) : M A := fun w => (Return a, w).

Definition bind {A B} (m : M A) (k : A -> M B) : M B :=
  fun w =>
    match m w with
    | (Return a, w') => k a w'
    | (Raise e, w') => (Raise e, w')
    end.

(** [try: body / except Exception as e: handler e]: an exception that is
    no instance of [Exception] goes through. *)
Definition try_except {A} (body : M A) (handler : exn -> M A) : M A :=
  fun w =>
    match body w with
    | (Return a, w') => (Return a, w')
    | (Raise e, w') => if catchable e then handler e w' else (Raise e, w')
    end.

Notation "x <- m ;; k" := (bind m (fun x => k))
  (at level 61, m at next level, right associativity).
Notation "m ;; k" := (bind m (fun _ => k))
  (at level 61, right associativity).

(** The two commands. *)
Definition git_diff_cached : argv :=
  [lit "git"; lit "diff"; lit "--cached"; lit "--name-only"].

Definition git_show (file_path : str) : argv :=
  [lit "git"; lit "show"; lit ":" ++ file_path].

(** The three messages; the leading code points are the cross mark, the
    check mark, and the warning sign with its variation selector. *)
Definition api_key_msg (file_path : str) : str :=
  [10060] ++ lit " Potential API key found in " ++ file_path.

Definition password_msg (file_path : str) : str :=
  [10060] ++ lit " Potential hardcoded password in " ++ file_path.

Definition passed_msg : str :=
  [9989] ++ lit " Security audit passed".

Definition error_msg (e : exn) : str :=
  [9888; 65039] ++ lit " Security audit error: " ++ message e.

(** [result.stdout.strip().split('\n') if result.stdout.strip() else []] *)
Definition staged_files (out : str) : list str :=
  if truthy (strip out) then split_lf (strip out) else [].

Section WithEnvironment.

(** The version-control collaborator: what running a command gives. *)
Variable git : argv -> result CompletedProcess.

(** The standard output: what writing a line to it gives, nothing when
    the line is written, an exception when it is not (the stream cannot
    encode the line, or is closed). *)
Variable console : str -> option exn.

Definition subprocess_run (a : argv) : M CompletedProcess :=
  fun w => (git a, log_call a w).

Definition print (s : str) : M unit :=
  fun w =>
    match console s with
    | None => (Return tt, log_line s w)
    | Some e => (Raise e, w)
    end.

(** The body of the [for] loop for one path.  [Some b] stands for
    [return b], [None] for going on with the next path ([continue], or
    the end of the body). *)
Definition scan_file (file_path : str) : M (option bool) :=
  if negb (truthy file_path) then ret None
  else
    try_except
      (result <- subprocess_run (git_show file_path) ;;
       let content := stdout result in
       if search api_key_re content then
         print (api_key_msg file_path) ;; ret (Some false)
       else if search password_re content then
         print (password_msg file_path) ;; ret (Some false)
       else ret None)
      (fun _ => ret None).

(** [for file_path in staged_files: ...] *)
Fixpoint for_each (files : list str) : M (option bool) :=
  match files with
  | [] => ret None
  | file_path :: rest =>
      r <- scan_file file_path ;;
      match r with
      | Some b => ret (Some b)
      | None => for_each rest
      end
  end.

Definition check_staged_files : M bool :=
  try_except
    (result <- subprocess_run git_diff_cached ;;
     r <- for_each (staged_files (stdout result)) ;;
     match r with
     | Some b => ret b
     | None => print passed_msg ;; ret true
     end)
    (fun e => print (error_msg e) ;; ret true).

(** How the process ends: [sys.exit(code)], or an exception that reaches
    the top level. *)
Inductive outcome : Type :=
| Exited (code : Z)
| Uncaught (e : exn).

(** The [__main__] block. *)
Definition main (w : world) : outcome * world :=
  match check_staged_files w with
  | (Return ok, w') => if negb ok then (Exited 1, w') else (Exited 0, w')
  | (Raise e, w') => (Uncaught e, w')
  end.

End WithEnvironment.

(** A collaborator for examples: [listing] is what the listing command
    gives, [files] what [git show] gives for the paths it knows; showing
    any other path fails with status 128 and no output. *)
Fixpoint str_eqb (a b : str) : bool :=
  match a, b with
  | [], [] => true
  | x :: a', y :: b' => (x =? y) && str_eqb a' b'
  | _, _ => false
  end.

Fixpoint lookup (files : list (str * result CompletedProcess)) (p : str)
  : result CompletedProcess :=
  match files with
  | [] => Return {| returncode := 128; stdout := [] |}
  | (q, r) :: files' => if str_eqb p q then r else lookup files' p
  end.

Definition repo (listing : result CompletedProcess)
  (files : list (str * result CompletedProcess)) : argv -> result CompletedProcess :=
  fun a =>
    match a with
    | [_; sub; arg] =>
        if str_eqb sub (lit "show") then lookup files (tl arg)
        else Return {| returncode := 1; stdout := [] |}
    | _ => listing
    end.

Definition ok (out : str) : result CompletedProcess :=
  Return {| returncode := 0; stdout := out |}.

(** A result that is no exception outside the class [Exception]. *)
Definition tame (r : result CompletedProcess) : bool :=
  match r with
  | Return _ => true
  | Raise e => catchable e
  end.

(** Two standard outputs for examples: one that takes every line, and one
    with the ASCII encoding, on which [print] raises [UnicodeEncodeError]
    for a line that holds another character. *)
Definition utf8_stdout : str -> option exn := fun _ => None.

Definition ascii_stdout : str -> option exn :=
  fun line =>
    if forallb (fun c => c <? 128) line then None
    else Some (Exception (lit "'ascii' codec can't encode character")).

End Audit.
Import Audit.

(* ================================================================== *)
(** * The words of the specification *)
(* ================================================================== *)

(** [tok] is the word [w] up to the case folding of [re.IGNORECASE]. *)
Fixpoint same_word_ci (w tok : str) : bool :=
  match w, tok with
  | [], [] => true
  | l :: w', c :: tok' => ignorecase_eq l c && same_word_ci w' tok'
  | _, _ => false
  end.

(** A content cut around one assignment of a quoted string:
    [before token gap1 = gap2 opening quoted closing after]. *)
Record assignment : Type :=
  { before : str; token : str; gap1 : str; gap2 : str;
    opening : char; quoted : str; closing : char; after : str }.

(** From the token to the opening quote character. *)
Definition head_of (a : assignment) : str :=
  token a ++ gap1 a ++ [cp "="] ++ gap2 a ++ [opening a].

Definition text_of (a : assignment) : str :=
  before a ++ head_of a ++ quoted a ++ [closing a] ++ after a.

(** The token is [password] in any case, the [=] and the opening quote
    character follow it on its line, and the quoted string lies between two
    quote characters and holds none. *)
Definition is_password_assignment (a : assignment) : bool :=
  same_word_ci (lit "password") (token a)
  && forallb not_lf (gap1 a) && forallb not_lf (gap2 a)
  && is_quote (opening a) && forallb non_quote (quoted a)
  && is_quote (closing a).

(** The contents that Rule B matches: those that can be cut as the token
    [password] in any case, [=] and a quote character further on the same
    line, eight or more characters that are no quote characters, and a
    quote character. *)
Definition has_password_cut (content : str) : Prop :=
  exists a, content = text_of a /\ is_password_assignment a = true /\
            (8 <= length (quoted a))%nat.

(** The world after some more calls and some more printed lines. *)
Definition extend (cs : list argv) (ls : list str) (w : world) : world :=
  {| calls := calls w ++ cs; printed := printed w ++ ls |}.

(** The paths of a listing that are looked at: the non-empty ones. *)
Definition fetched (files : list str) : list argv :=
  map git_show (filter truthy files).

(** What one turn of the loop comes to: the loop goes on with the next
    path; or a line is printed and [False] returned; or an exception
    leaves the function, caught by no handler. *)
Inductive step : Type :=
| Next
| Block (line : str)
| Abort (e : exn).

(** Printing a block message inside the inner [try]: when the line cannot
    be written, the handler of the inner [try] takes the exception and the
    loop goes on. *)
Definition say (console : str -> option exn) (line : str) : step :=
  match console line with
  | None => Block line
  | Some e => if catchable e then Next else Abort e
  end.

(** What one path of the listing comes to. *)
Definition hit (git : argv -> result CompletedProcess) (console : str -> option exn)
  (file_path : str) : step :=
  if truthy file_path then
    match git (git_show file_path) with
    | Return shown =>
        if search api_key_re (stdout shown) then say console (api_key_msg file_path)
        else if search password_re (stdout shown) then say console (password_msg file_path)
        else Next
    | Raise e => if catchable e then Next else Abort e
    end
  else Next.

(** A path past which the loop goes on without a trace: it is empty, or
    its content cannot be had, or neither pattern is found in it, or the
    message could not be written. *)
Definition clean (git : argv -> result CompletedProcess) (console : str -> option exn)
  (file_path : str) : Prop :=
  hit git console file_path = Next.

(** What the first path of a listing that does not let the loop go on
    comes to, and the commands run until then. *)
Fixpoint verdict (git : argv -> result CompletedProcess) (console : str -> option exn)
  (files : list str) : step :=
  match files with
  | [] => Next
  | f :: rest =>
      match hit git console f with
      | Next => verdict git console rest
      | s => s
      end
  end.

Fixpoint visited (git : argv -> result CompletedProcess) (console : str -> option exn)
  (files : list str) : list argv :=
  match files with
  | [] => []
  | f :: rest =>
      fetched [f] ++
      match hit git console f with
      | Next => visited git console rest
      | _ => []
      end
  end.

Definition lines_of (s : step) : list str :=
  match s with
  | Block m => [m]
  | _ => []
  end.

(** What the loop hands on after one path. *)
Definition handed (s : step) : result (option bool) :=
  match s with
  | Next => Return None
  | Block _ => Return (Some false)
  | Abort e => Raise e
  end.

(** The paths of a listing the audit is given to look at, whether the
    listing command returned or raised. *)
Definition listed (git : argv -> result CompletedProcess) : list str :=
  match git git_diff_cached with
  | Return listing => staged_files (stdout listing)
  | Raise _ => []
  end.

(** What the handler of the outer [try] does with an exception: it prints
    the warning, outside any [try]. *)
Definition handled (console : str -> option exn) (e : exn) : result bool * list str :=
  match console (error_msg e) with
  | None => (Return true, [error_msg e])
  | Some e' => (Raise e', [])
  end.

(** What an exception raised inside the outer [try] leads to. *)
Definition raised (console : str -> option exn) (e : exn) : result bool * list str :=
  if catchable e then handled console e else (Raise e, []).

(** How [check_staged_files] ends and what it prints. *)
Definition ending (git : argv -> result CompletedProcess) (console : str -> option exn)
  : result bool * list str :=
  match git git_diff_cached with
  | Raise e => raised console e
  | Return _ =>
      match verdict git console (listed git) with
      | Block m => (Return false, [m])
      | Abort e => (Raise e, [])
      | Next =>
          match console passed_msg with
          | None => (Return true, [passed_msg])
          | Some e => raised console e
          end
      end
  end.

(** No exception outside the class [Exception] is raised, by a command
    or by the standard output. *)
Definition polite (git : argv -> result CompletedProcess) (console : str -> option exn)
  : Prop :=
  (forall a e, git a = Raise e -> catchable e = true) /\
  (forall line e, console line = Some e -> catchable e = true).

(** The warning of the outer handler can be written, whatever the
    exception. *)
Definition warns (console : str -> option exn) : Prop :=
  forall e, console (error_msg e) = None.

(** A path whose staged content cannot be had: running [git show] raises
    an [Exception] (the output is not text, the command cannot be run), or
    the command fails and writes nothing to its standard output. *)
Definition unreadable (git : argv -> result CompletedProcess) (file_path : str) : Prop :=
  (exists e, catchable e = true /\ git (git_show file_path) = Raise e) \/
  (exists status, status <> 0%Z /\
     git (git_show file_path) = Return {| returncode := status; stdout := [] |}).

(** Two collaborators answer a command alike: the same standard output,
    or the same exception. *)
Definition same_answer (git git' : argv -> result CompletedProcess) (a : argv) : Prop :=
  match git a, git' a with
  | Return r, Return r' => stdout r = stdout r'
  | Raise e, Raise e' => e = e'
  | _, _ => False
  end.

(** A printed line is the warning of the outer handler. *)
Fixpoint starts_with (prefix s : str) : bool :=
  match prefix, s with
  | [], _ => true
  | c :: prefix', d :: s' => (c =? d) && starts_with prefix' s'
  | _ :: _, [] => false
  end.

Definition is_warning (line : str) : bool :=
  starts_with (error_msg (Exception [])) line.

(** The fields of a text put together again with line feeds between
    them. *)
Fixpoint join_lf (fields : list str) : str :=
  match fields with
  | [] => []
  | f :: rest =>
      match rest with
      | [] => f
      | _ :: _ => f ++ LF :: join_lf rest
      end
  end.

(** What the listing command prints for some paths: every path is
    followed by a line feed. *)
Definition listing_of (paths : list str) : str :=
  concat (map (fun p => p ++ [LF]) paths).

(** A path that starts, or ends, with a character that is no white
    space. *)
Definition starts_clean (p : str) : bool :=
  match p with
  | c :: _ => negb (isspace c)
  | [] => false
  end.

Definition ends_clean (p : str) : bool := starts_clean (rev p).

(* ================================================================== *)
(** * The matcher computes the declarative semantics *)
(* ================================================================== *)

(** Two ways of bracketing the same concatenation. *)
Ltac reassoc := repeat (rewrite <- ?app_assoc; simpl); reflexivity.

Section Matcher.

Lemma lang_void_inv s : lang Void s -> False.
Proof. intro H; inversion H. Qed.

Lemma lang_eps_inv s : lang Eps s -> s = [].
Proof. intro H; inversion H; reflexivity. Qed.

Lemma lang_class_inv p s : lang (Class p) s -> exists c, s = [c] /\ p c = true.
Proof. intro H; inversion H; subst; eauto. Qed.

Lemma lang_cat_inv r1 r2 s :
  lang (Cat r1 r2) s -> exists s1 s2, s = s1 ++ s2 /\ lang r1 s1 /\ lang r2 s2.
Proof. intro H; inversion H; subst; eauto. Qed.

Lemma lang_alt_inv r1 r2 s : lang (Alt r1 r2) s -> lang r1 s \/ lang r2 s.
Proof. intro H; inversion H; subst; auto. Qed.

Lemma nullable_spec r : nullable r = true <-> lang r [].
Proof.
  induction r as [| | p | r1 IH1 r2 IH2 | r1 IH1 r2 IH2 | r IH]; simpl.
  - split; [discriminate | intro H; inversion H].
  - split; [constructor | reflexivity].
  - split; [discriminate | intro H; inversion H].
  - rewrite andb_true_iff, IH1, IH2. split.
    + intros [H1 H2]. exact (L_cat H1 H2).
    + intro H. apply lang_cat_inv in H as (s1 & s2 & E & H1 & H2).
      symmetry in E. apply app_eq_nil in E as [-> ->]. auto.
  - rewrite orb_true_iff, IH1, IH2. split.
    + intros [H | H]; [apply L_alt_l | apply L_alt_r]; exact H.
    + apply lang_alt_inv.
  - split; [constructor | reflexivity].
Qed.

Lemma cat_spec r1 r2 s : lang (cat r1 r2) s <-> lang (Cat r1 r2) s.
Proof.
  assert (V1 : forall r, lang (Cat Void r) s <-> lang Void s).
  { intro r; split; intro H; [| destruct (lang_void_inv H)].
    apply lang_cat_inv in H as (? & ? & _ & H & _). destruct (lang_void_inv H). }
  assert (V2 : forall r, lang (Cat r Void) s <-> lang Void s).
  { intro r; split; intro H; [| destruct (lang_void_inv H)].
    apply lang_cat_inv in H as (? & ? & _ & _ & H). destruct (lang_void_inv H). }
  assert (E1 : forall r, lang (Cat Eps r) s <-> lang r s).
  { intro r; split; intro H.
    - apply lang_cat_inv in H as (s1 & s2 & -> & H1 & H2).
      apply lang_eps_inv in H1 as ->. exact H2.
    - exact (L_cat L_eps H). }
  destruct r1, r2; simpl;
    first [ reflexivity | symmetry; apply V1 | symmetry; apply V2 | symmetry; apply E1 ].
Qed.

Lemma alt_spec r1 r2 s : lang (alt r1 r2) s <-> lang (Alt r1 r2) s.
Proof.
  assert (V1 : forall r, lang (Alt Void r) s <-> lang r s).
  { intro r; split; intro H; [| apply L_alt_r; exact H].
    apply lang_alt_inv in H as [H | H]; [destruct (lang_void_inv H) | exact H]. }
  assert (V2 : forall r, lang (Alt r Void) s <-> lang r s).
  { intro r; split; intro H; [| apply L_alt_l; exact H].
    apply lang_alt_inv in H as [H | H]; [exact H | destruct (lang_void_inv H)]. }
  destruct r1, r2; simpl;
    first [ reflexivity | symmetry; apply V1 | symmetry; apply V2 ].
Qed.

(** A non-empty member of a starred language starts with a non-empty
    member of the language itself. *)
Lemma lang_star_cons r c s :
  lang (Star r) (c :: s) ->
  exists s1 s2, s = s1 ++ s2 /\ lang r (c :: s1) /\ lang (Star r) s2.
Proof.
  intro H. remember (Star r) as r' eqn:Er. remember (c :: s) as t eqn:Et.
  revert s Et.
  induction H as [| | | | | | r0 s1 s2 H1 _ H2 IH2]; intros u Et; try discriminate.
  injection Er as ->.
  destruct s1 as [| c1 s1'].
  - simpl in Et. apply IH2; [reflexivity | exact Et].
  - simpl in Et. injection Et as -> <-. eauto.
Qed.

Lemma deriv_spec r : forall c s, lang (deriv c r) s <-> lang r (c :: s).
Proof.
  induction r as [| | p | r1 IH1 r2 IH2 | r1 IH1 r2 IH2 | r IH]; intros c s; simpl.
  - split; intro H; inversion H.
  - split; intro H; inversion H.
  - destruct (p c) eqn:Ep; split; intro H.
    + apply lang_eps_inv in H as ->. constructor. exact Ep.
    + inversion H; subst. constructor.
    + destruct (lang_void_inv H).
    + inversion H; subst. congruence.
  - assert (L : lang (Cat (deriv c r1) r2) s ->  lang (Cat r1 r2) (c :: s)).
    { intro H. apply lang_cat_inv in H as (s1 & s2 & -> & H1 & H2).
      apply IH1 in H1. exact (L_cat H1 H2). }
    destruct (nullable r1) eqn:N.
    + rewrite alt_spec. split; intro H.
      * apply lang_alt_inv in H as [H | H].
        -- apply cat_spec in H. auto.
        -- apply IH2 in H. apply nullable_spec in N. exact (L_cat N H).
      * apply lang_cat_inv in H as (s1 & s2 & E & H1 & H2).
        destruct s1 as [| c1 s1']; simpl in E.
        -- subst s2. apply L_alt_r, IH2, H2.
        -- injection E as <- ->. apply L_alt_l, cat_spec.
           apply L_cat; [apply IH1, H1 | exact H2].
    + rewrite cat_spec. split; [exact L | intro H].
      apply lang_cat_inv in H as (s1 & s2 & E & H1 & H2).
      destruct s1 as [| c1 s1']; simpl in E.
      * apply nullable_spec in H1. congruence.
      * injection E as <- ->. apply L_cat; [apply IH1, H1 | exact H2].
  - rewrite alt_spec. split; intro H.
    + apply lang_alt_inv in H as [H | H];
        [apply L_alt_l, IH1, H | apply L_alt_r, IH2, H].
    + apply lang_alt_inv in H as [H | H];
        [apply L_alt_l, IH1, H | apply L_alt_r, IH2, H].
  - rewrite cat_spec. split; intro H.
    + apply lang_cat_inv in H as (s1 & s2 & -> & H1 & H2).
      apply IH in H1. exact (L_star_app H1 H2).
    + apply lang_star_cons in H as (s1 & s2 & -> & H1 & H2).
      apply L_cat; [apply IH, H1 | exact H2].
Qed.

(** [prefix_match] finds a matching prefix exactly when there is one. *)
Lemma prefix_match_spec s : forall r,
  prefix_match r s = true <-> exists m b, s = m ++ b /\ lang r m.
Proof.
  induction s as [| c s IH]; intro r; simpl.
  - rewrite orb_false_r, nullable_spec. split.
    + intro H. exists [], []. auto.
    + intros (m & b & E & H). symmetry in E.
      apply app_eq_nil in E as [-> _]. exact H.
  - rewrite orb_true_iff, nullable_spec, IH. split.
    + intros [H | (m & b & -> & H)].
      * exists [], (c :: s). auto.
      * exists (c :: m), b. split; [reflexivity | apply deriv_spec, H].
    + intros (m & b & E & H). destruct m as [| c' m']; simpl in E.
      * left. exact H.
      * injection E as <- ->. right. exists m', b.
        split; [reflexivity | apply deriv_spec, H].
Qed.

(** [search] succeeds exactly when some substring is in the language. *)
Theorem search_spec r s :
  search r s = true <-> exists a m b, s = a ++ m ++ b /\ lang r m.
Proof.
  induction s as [| c s IH]; simpl.
  - rewrite orb_false_r. rewrite (prefix_match_spec [] r). split.
    + intros (m & b & E & H). exists [], m, b. auto.
    + intros (a & m & b & E & H). symmetry in E.
      apply app_eq_nil in E as [-> E]. eauto.
  - rewrite orb_true_iff, IH, (prefix_match_spec (c :: s) r). split.
    + intros [(m & b & E & H) | (a & m & b & -> & H)].
      * exists [], m, b. auto.
      * exists (c :: a), m, b. auto.
    + intros (a & m & b & E & H). destruct a as [| c' a']; simpl in E.
      * left. eauto.
      * injection E as <- ->. right. eauto.
Qed.

End Matcher.

(* ================================================================== *)
(** * What the two patterns match *)
(* ================================================================== *)

Section Patterns.

Lemma lang_star_class p s : lang (Star (Class p)) s <-> forallb p s = true.
Proof.
  split.
  - intro H. remember (Star (Class p)) as r eqn:Er.
    induction H as [| | | | | | r0 s1 s2 H1 _ H2 IH2]; try discriminate.
    + reflexivity.
    + injection Er as ->. apply lang_class_inv in H1 as (c & -> & Hc).
      simpl. rewrite Hc. apply IH2. reflexivity.
  - induction s as [| c s IH]; simpl; intro H.
    + constructor.
    + apply andb_true_iff in H as [Hc Hs].
      apply (L_star_app (s1 := [c])); [constructor; exact Hc | apply IH, Hs].
Qed.

Lemma lang_at_least n p : forall s,
  lang (at_least n (Class p)) s <-> (n <= length s)%nat /\ forallb p s = true.
Proof.
  induction n as [| n IH]; intro s; simpl.
  - rewrite lang_star_class. split; [intro H; split; [lia | exact H] | tauto].
  - split.
    + intro H. apply lang_cat_inv in H as (s1 & s2 & -> & H1 & H2).
      apply lang_class_inv in H1 as (c & -> & Hc). apply IH in H2 as [Hn Hs].
      simpl. rewrite Hc. split; [lia | exact Hs].
    + intros [Hn Hs]. destruct s as [| c s]; simpl in *; [lia |].
      apply andb_true_iff in Hs as [Hc Hs].
      apply (L_cat (s1 := [c])); [constructor; exact Hc |].
      apply IH. split; [lia | exact Hs].
Qed.

Lemma lang_chr c s : lang (chr c) s <-> s = [c].
Proof.
  unfold chr. split.
  - intro H. apply lang_class_inv in H as (c' & -> & E).
    apply N.eqb_eq in E. subst. reflexivity.
  - intros ->. constructor. apply N.eqb_refl.
Qed.

Lemma lang_word_ci w : forall s, lang (word_ci w) s <-> same_word_ci w s = true.
Proof.
  induction w as [| l w IH]; intro s; simpl.
  - split.
    + intro H. apply lang_eps_inv in H as ->. reflexivity.
    + destruct s; [constructor | discriminate].
  - split.
    + intro H. apply lang_cat_inv in H as (s1 & s2 & -> & H1 & H2).
      apply lang_class_inv in H1 as (c & -> & Hc). simpl.
      rewrite Hc. apply IH, H2.
    + destruct s as [| c s]; [discriminate |]. intro H.
      apply andb_true_iff in H as [Hc Hs].
      apply (L_cat (s1 := [c])); [constructor; exact Hc | apply IH, Hs].
Qed.

(** Rule A in words: [sk-] and then twenty or more ASCII letters or
    digits. *)
Lemma api_key_lang m :
  lang api_key_re m <->
  exists key, m = lit "sk-" ++ key /\ (20 <= length key)%nat /\ forallb alnum key = true.
Proof.
  unfold api_key_re. split.
  - intro H.
    apply lang_cat_inv in H as (a & m1 & -> & Ha & H).
    apply lang_cat_inv in H as (b & m2 & -> & Hb & H).
    apply lang_cat_inv in H as (c & key & -> & Hc & H).
    apply lang_chr in Ha as ->, Hb as ->, Hc as ->.
    apply lang_at_least in H. exists key. split; [reflexivity | exact H].
  - intros (key & -> & H).
    apply (L_cat (s1 := [cp "s"])); [apply lang_chr; reflexivity |].
    apply (L_cat (s1 := [cp "k"])); [apply lang_chr; reflexivity |].
    apply (L_cat (s1 := [cp "-"])); [apply lang_chr; reflexivity |].
    apply lang_at_least, H.
Qed.

(** Rule B in words. *)
Lemma password_lang m :
  lang password_re m <->
  exists tok m1 m2 q1 body q2,
    m = tok ++ m1 ++ [cp "="] ++ m2 ++ [q1] ++ body ++ [q2]
    /\ same_word_ci (lit "password") tok = true
    /\ forallb not_lf m1 = true /\ forallb not_lf m2 = true
    /\ is_quote q1 = true
    /\ (8 <= length body)%nat /\ forallb non_quote body = true
    /\ is_quote q2 = true.
Proof.
  unfold password_re, dot. split.
  - intro H.
    apply lang_cat_inv in H as (tok & x1 & -> & Htok & H).
    apply lang_cat_inv in H as (m1 & x2 & -> & Hm1 & H).
    apply lang_cat_inv in H as (e & x3 & -> & He & H).
    apply lang_cat_inv in H as (m2 & x4 & -> & Hm2 & H).
    apply lang_cat_inv in H as (o & x5 & -> & Ho & H).
    apply lang_cat_inv in H as (body & cl & -> & Hbody & Hcl).
    apply lang_word_ci in Htok. apply lang_star_class in Hm1, Hm2.
    apply lang_chr in He as ->.
    apply lang_class_inv in Ho as (q1 & -> & Hq1).
    apply lang_class_inv in Hcl as (q2 & -> & Hq2).
    apply lang_at_least in Hbody as [Hn Hb].
    exists tok, m1, m2, q1, body, q2. repeat split; assumption.
  - intros (tok & m1 & m2 & q1 & body & q2 & -> & Htok & Hm1 & Hm2 & Hq1 & Hn & Hb & Hq2).
    apply L_cat; [apply lang_word_ci, Htok |].
    apply L_cat; [apply lang_star_class, Hm1 |].
    apply (L_cat (s1 := [cp "="])); [apply lang_chr; reflexivity |].
    apply L_cat; [apply lang_star_class, Hm2 |].
    apply (L_cat (s1 := [q1])); [constructor; exact Hq1 |].
    apply L_cat; [apply lang_at_least; auto | constructor; exact Hq2].
Qed.

End Patterns.

Section Quotes.

Lemma quote_not_non_quote u c v :
  forallb non_quote (u ++ c :: v) = true -> is_quote c = true -> False.
Proof.
  rewrite forallb_app. simpl. unfold non_quote at 2. intros H Hc.
  rewrite Hc in H. simpl in H. rewrite andb_false_r in H. discriminate.
Qed.

(** Where a quote character can stand in a text whose first quote
    character is known. *)
Lemma first_quote a : forall x q1 r1 q r,
  forallb non_quote a = true -> is_quote q1 = true ->
  x ++ q1 :: r1 = a ++ q :: r ->
  (x = a /\ q1 = q /\ r1 = r) \/ (exists x', x = a ++ q :: x' /\ x' ++ q1 :: r1 = r).
Proof.
  induction a as [| c a IH]; intros x q1 r1 q r Ha Hq1 E; simpl in *.
  - destruct x as [| c' x']; simpl in E.
    + injection E as -> ->. left. auto.
    + injection E as -> <-. right. exists x'. auto.
  - apply andb_true_iff in Ha as [Hc Ha].
    destruct x as [| c' x']; simpl in E; injection E as -> E.
    + unfold non_quote in Hc. rewrite Hq1 in Hc. discriminate.
    + destruct (IH _ _ _ _ _ Ha Hq1 E) as [(-> & -> & ->) | (x'' & -> & <-)].
      * left. auto.
      * right. exists x''. auto.
Qed.

(** Rule B needs eight characters between two neighbouring quote
    characters: a content with two quote characters only, fewer than eight
    characters apart, is not matched. *)
Lemma two_quotes_no_match a q body q' b :
  forallb non_quote a = true -> forallb non_quote body = true ->
  forallb non_quote b = true ->
  is_quote q = true -> is_quote q' = true -> (length body < 8)%nat ->
  search password_re (a ++ q :: body ++ q' :: b) = false.
Proof.
  intros Ha Hbody Hb Hq Hq' Hlen.
  destruct (search password_re (a ++ q :: body ++ q' :: b)) eqn:S; [| reflexivity].
  exfalso. apply search_spec in S as (x & m & y & E & L).
  apply password_lang in L
    as (tok & m1 & m2 & q1 & bd & q2 & -> & _ & _ & _ & Hq1 & Hn & Hbd & Hq2).
  assert (E' : (x ++ tok ++ m1 ++ [cp "="] ++ m2) ++ q1 :: (bd ++ q2 :: y)
               = a ++ q :: (body ++ q' :: b)).
  { rewrite E. reassoc. }
  destruct (@first_quote _ _ _ _ _ _ Ha Hq1 E') as [(_ & _ & E1) | (x' & _ & E1)].
  - destruct (@first_quote _ _ _ _ _ _ Hbody Hq2 E1) as [(-> & _ & _) | (x'' & -> & _)].
    + lia.
    + exact (@quote_not_non_quote _ _ _ Hbd Hq').
  - destruct (@first_quote _ _ _ _ _ _ Hbody Hq1 E1) as [(_ & _ & <-) | (x'' & _ & <-)].
    + exact (@quote_not_non_quote _ _ _ Hb Hq2).
    + exact (@quote_not_non_quote _ _ _ Hb Hq1).
Qed.

(** An assignment of a quoted string of eight characters or more is
    matched. *)
Lemma assignment_matches a :
  is_password_assignment a = true -> (8 <= length (quoted a))%nat ->
  search password_re (text_of a) = true.
Proof.
  unfold is_password_assignment. rewrite !andb_true_iff.
  intros [[[[[Ht H1] H2] Ho] Hq] Hc] Hn.
  apply search_spec.
  exists (before a), (head_of a ++ quoted a ++ [closing a]), (after a). split.
  - unfold text_of. reassoc.
  - apply password_lang.
    exists (token a), (gap1 a), (gap2 a), (opening a), (quoted a), (closing a).
    repeat split; try assumption.
    unfold head_of. reassoc.
Qed.

(** A letter of [password] in any case is no line feed. *)
Lemma same_word_ci_not_lf w : forall tok,
  forallb (N.leb 97) w = true -> same_word_ci w tok = true ->
  forallb not_lf tok = true.
Proof.
  induction w as [| l w IH]; intros [| c tok]; simpl; try discriminate; auto.
  rewrite !andb_true_iff. intros [Hl Hw] [Hc Ht]. split; [| auto].
  unfold ignorecase_eq in Hc. unfold not_lf, LF.
  apply N.leb_le in Hl. apply negb_true_iff, N.eqb_neq.
  rewrite !orb_true_iff, andb_true_iff, !N.eqb_eq in Hc. lia.
Qed.

End Quotes.

Section Lines.

(** The first field of [split_lf] is a prefix of the text and every other
    field lies somewhere in it. *)
Lemma split_lf_fields s :
  exists f fs, split_lf s = f :: fs /\ (exists b, s = f ++ b) /\
    forall l, In l fs -> exists a b, s = a ++ l ++ b.
Proof.
  induction s as [| c s (f & fs & E & (b & Eb) & Hfs)]; simpl.
  - exists [], []. repeat split; [exists []; reflexivity | intros l []].
  - destruct (c =? LF).
    + exists [], (split_lf s). repeat split; [exists (c :: s); reflexivity |].
      intros l Hl. rewrite E in Hl. destruct Hl as [<- | Hl].
      * exists [c], b. exact (f_equal (cons c) Eb).
      * destruct (Hfs l Hl) as (a' & b' & ->). exists (c :: a'), b'. reflexivity.
    + rewrite E. exists (c :: f), fs. repeat split.
      * exists b. exact (f_equal (cons c) Eb).
      * intros l Hl. destruct (Hfs l Hl) as (a' & b' & ->).
        exists (c :: a'), b'. reflexivity.
Qed.

Lemma In_split_lf s l : In l (split_lf s) -> exists a b, s = a ++ l ++ b.
Proof.
  destruct (split_lf_fields s) as (f & fs & E & (b & Eb) & Hfs).
  rewrite E. intros [<- | Hl]; [exists [], b; exact Eb | auto].
Qed.

(** What is found in a part of a text is found in the text. *)
Lemma search_infix r a l b : search r l = true -> search r (a ++ l ++ b) = true.
Proof.
  intro H. apply search_spec in H as (x & m & y & -> & L).
  apply search_spec. exists (a ++ x), m, (y ++ b). split; [| exact L].
  reassoc.
Qed.

End Lines.

(** Rule B matches the contents that have such a cut, and no other. *)
Lemma password_cut_iff content :
  search password_re content = true <-> has_password_cut content.
Proof.
  unfold has_password_cut. split.
  - intro S. apply search_spec in S as (x & m & y & -> & L).
    apply password_lang in L
      as (tok & m1 & m2 & q1 & bd & q2 & -> & Ht & H1 & H2 & Hq1 & Hn & Hbd & Hq2).
    exists {| before := x; token := tok; gap1 := m1; gap2 := m2; opening := q1;
              quoted := bd; closing := q2; after := y |}.
    unfold text_of, head_of, is_password_assignment.
    cbn [before token gap1 gap2 opening quoted closing after].
    rewrite Ht, H1, H2, Hq1, Hbd, Hq2. repeat split; [reassoc | exact Hn].
  - intros (a & -> & Ha & Hn). apply assignment_matches; assumption.
Qed.

(* ================================================================== *)
(** * The listing: [strip] and [split] *)
(* ================================================================== *)

Section Listing.

Lemma lstrip_space ws s : forallb isspace ws = true -> lstrip (ws ++ s) = lstrip s.
Proof.
  induction ws as [| c ws IH]; simpl; intro H; [reflexivity |].
  apply andb_true_iff in H as [Hc Hws]. rewrite Hc. auto.
Qed.

Lemma lstrip_clean s : starts_clean s = true -> lstrip s = s.
Proof.
  destruct s as [| c s]; simpl; [discriminate |].
  intro H. apply negb_true_iff in H. rewrite H. reflexivity.
Qed.

(** [lstrip] removes a run of white space and stops at the first other
    character. *)
Lemma lstrip_split s :
  exists ws, s = ws ++ lstrip s /\ forallb isspace ws = true /\
             (lstrip s = [] \/ starts_clean (lstrip s) = true).
Proof.
  induction s as [| c s (ws & E & Hws & Hs)]; simpl.
  - exists []. auto.
  - destruct (isspace c) eqn:Hc.
    + exists (c :: ws). simpl. rewrite Hc, Hws. repeat split; [congruence | exact Hs].
    + exists []. simpl. rewrite Hc. auto.
Qed.

Lemma rstrip_space s ws : forallb isspace ws = true -> rstrip (s ++ ws) = rstrip s.
Proof.
  intro H. unfold rstrip. rewrite rev_app_distr, lstrip_space; [reflexivity |].
  rewrite forallb_forall in *. intros c Hc. apply H, in_rev, Hc.
Qed.

Lemma rstrip_clean s : ends_clean s = true -> rstrip s = s.
Proof.
  intro H. unfold rstrip. rewrite (lstrip_clean _ H). apply rev_involutive.
Qed.

Lemma rstrip_split s :
  exists ws, s = rstrip s ++ ws /\ forallb isspace ws = true /\
             (rstrip s = [] \/ ends_clean (rstrip s) = true).
Proof.
  destruct (lstrip_split (rev s)) as (ws & E & Hws & Hs).
  exists (rev ws). unfold rstrip, ends_clean. rewrite rev_involutive. repeat split.
  - rewrite <- rev_app_distr, <- E, rev_involutive. reflexivity.
  - rewrite forallb_forall in *. intros c Hc. apply Hws, in_rev, Hc.
  - destruct Hs as [-> | Hs]; [left; reflexivity | right; exact Hs].
Qed.

(** The result of [strip] is empty or has a character that is no white
    space at either end, and it is the text without a run of white space
    on each side. *)
Lemma strip_decompose s :
  exists ws1 ws2, s = ws1 ++ strip s ++ ws2 /\
    forallb isspace ws1 = true /\ forallb isspace ws2 = true /\
    (strip s = [] \/ (starts_clean (strip s) = true /\ ends_clean (strip s) = true)).
Proof.
  destruct (lstrip_split s) as (ws1 & E1 & H1 & S1).
  destruct (rstrip_split (lstrip s)) as (ws2 & E2 & H2 & S2).
  fold (strip s) in E2, S2.
  exists ws1, ws2. repeat split; try assumption.
  - rewrite <- E2. exact E1.
  - destruct S2 as [S2 | S2]; [left; exact S2 | right].
    split; [| exact S2].
    destruct (strip s) as [| c t] eqn:Es; [discriminate |].
    destruct S1 as [S1 | S1]; [rewrite S1 in E2; discriminate |].
    rewrite E2 in S1. exact S1.
Qed.

Lemma strip_clean s : starts_clean s = true -> ends_clean s = true -> strip s = s.
Proof.
  intros H1 H2. unfold strip. rewrite (lstrip_clean _ H1). apply rstrip_clean, H2.
Qed.

Lemma strip_space ws : forallb isspace ws = true -> strip ws = [].
Proof.
  intro H. unfold strip.
  rewrite <- (app_nil_r ws), (lstrip_space _ [] H). reflexivity.
Qed.

Lemma strip_surround ws1 s ws2 :
  forallb isspace ws1 = true -> forallb isspace ws2 = true ->
  strip (ws1 ++ s ++ ws2) = strip s.
Proof.
  intros H1 H2. unfold strip. rewrite (lstrip_space _ _ H1).
  destruct (lstrip_split s) as (ws & E & Hws & [Hs | Hs]).
  - rewrite Hs. rewrite E, Hs, app_nil_r.
    fold (strip (ws ++ ws2)). apply strip_space.
    rewrite forallb_app, Hws, H2. reflexivity.
  - assert (L : lstrip (s ++ ws2) = lstrip s ++ ws2).
    { rewrite E at 1. rewrite <- app_assoc, (lstrip_space _ _ Hws).
      apply lstrip_clean. destruct (lstrip s); [discriminate | exact Hs]. }
    rewrite L. apply rstrip_space, H2.
Qed.

(** [split_lf] and [join_lf] undo each other. *)
Lemma join_split_lf s : join_lf (split_lf s) = s.
Proof.
  induction s as [| c s IH]; simpl; [reflexivity |].
  destruct (split_lf_fields s) as (f & fs & E & _). rewrite E in *.
  destruct (c =? LF) eqn:Ec.
  - apply N.eqb_eq in Ec. subst c. simpl in *. congruence.
  - destruct fs; simpl in *; congruence.
Qed.

Lemma split_lf_no_lf s : Forall (fun f => forallb not_lf f = true) (split_lf s).
Proof.
  induction s as [| c s IH]; simpl.
  - repeat constructor.
  - destruct (c =? LF) eqn:Ec.
    + constructor; [reflexivity | exact IH].
    + destruct (split_lf s) as [| f fs]; inversion IH; subst;
        constructor; simpl; unfold not_lf at 1; rewrite ?Ec; auto.
Qed.

Lemma split_join_lf fields :
  fields <> [] -> Forall (fun f => forallb not_lf f = true) fields ->
  split_lf (join_lf fields) = fields.
Proof.
  assert (P : forall f rest, forallb not_lf f = true ->
            split_lf (f ++ LF :: rest) = f :: split_lf rest).
  { induction f as [| c f IH]; intros rest Hf; simpl; [reflexivity |].
    simpl in Hf. apply andb_true_iff in Hf as [Hc Hf].
    unfold not_lf in Hc. apply negb_true_iff in Hc. rewrite Hc, (IH _ Hf).
    reflexivity. }
  assert (Q : forall f, forallb not_lf f = true -> split_lf f = [f]).
  { induction f as [| c f IH]; intro Hf; simpl; [reflexivity |].
    simpl in Hf. apply andb_true_iff in Hf as [Hc Hf].
    unfold not_lf in Hc. apply negb_true_iff in Hc. rewrite Hc, (IH Hf).
    reflexivity. }
  induction fields as [| f rest IH]; intros Hne H; [congruence |].
  inversion H as [| ? ? Hf Hrest]; subst.
  destruct rest as [| g rest']; simpl.
  - apply Q, Hf.
  - rewrite (P _ _ Hf). f_equal. apply IH; [discriminate | exact Hrest].
Qed.

(** The last field, apart. *)
Lemma join_lf_last init l : join_lf (init ++ [l]) = listing_of init ++ l.
Proof.
  induction init as [| f init IH]; simpl; [reflexivity |].
  destruct (init ++ [l]) as [| g r] eqn:E.
  - destruct init; discriminate.
  - rewrite IH. unfold listing_of. simpl. rewrite <- !app_assoc. reflexivity.
Qed.

Lemma listing_of_last init l :
  listing_of (init ++ [l]) = join_lf (init ++ [l]) ++ [LF].
Proof.
  rewrite join_lf_last. unfold listing_of.
  rewrite map_app, concat_app. simpl. rewrite app_nil_r, app_assoc. reflexivity.
Qed.

End Listing.

Section Lengths.

Lemma same_word_ci_length w : forall tok,
  same_word_ci w tok = true -> length tok = length w.
Proof.
  induction w as [| l w IH]; intros [| c tok]; simpl; try discriminate; auto.
  intro H. apply andb_true_iff in H as [_ H]. f_equal. auto.
Qed.

End Lengths.

Section Ends.

(** What [listing_of] prints for some paths ends with a line feed. *)
Lemma listing_of_snoc init p : listing_of (init ++ [p]) = listing_of init ++ p ++ [LF].
Proof.
  unfold listing_of. rewrite map_app, concat_app. simpl.
  rewrite app_nil_r. reflexivity.
Qed.

Lemma starts_clean_app p q : starts_clean p = true -> starts_clean (p ++ q) = true.
Proof. destruct p; simpl; [discriminate | auto]. Qed.

Lemma ends_clean_app p q : ends_clean q = true -> ends_clean (p ++ q) = true.
Proof. unfold ends_clean. rewrite rev_app_distr. apply starts_clean_app. Qed.

Lemma starts_clean_join f rest :
  starts_clean f = true -> starts_clean (join_lf (f :: rest)) = true.
Proof.
  intro H. simpl. destruct rest; [exact H | apply starts_clean_app, H].
Qed.

(** A text that starts clean has a first field that starts clean, and one
    that ends clean a last field that ends clean. *)
Lemma starts_clean_first f rest :
  starts_clean (join_lf (f :: rest)) = true -> starts_clean f = true.
Proof.
  simpl. destruct rest as [| g rest]; [auto |].
  destruct f as [| c f]; simpl; [discriminate | auto].
Qed.

Lemma ends_clean_last init l :
  ends_clean (join_lf (init ++ [l])) = true -> ends_clean l = true.
Proof.
  rewrite join_lf_last. unfold ends_clean. rewrite rev_app_distr.
  destruct (rev l) as [| d r] eqn:El; simpl; [| auto].
  destruct init as [| p init' _] using rev_ind; [discriminate |].
  rewrite listing_of_snoc, !rev_app_distr. simpl. discriminate.
Qed.

(** A text with no white space at its ends, followed by a line feed, is
    read as its fields. *)
Lemma staged_files_clean t :
  starts_clean t = true -> ends_clean t = true ->
  staged_files (t ++ [LF]) = split_lf t.
Proof.
  intros Hs He. unfold staged_files.
  assert (St : strip (t ++ [LF]) = t).
  { rewrite <- (strip_clean t Hs He) at 2.
    apply (strip_surround [] t [LF]); reflexivity. }
  rewrite St. destruct t; [discriminate | reflexivity].
Qed.

End Ends.

(* ================================================================== *)
(** * What a run does, file by file *)
(* ================================================================== *)

Section Worlds.

Lemma extend_nil w : extend [] [] w = w.
Proof. destruct w; unfold extend; simpl. now rewrite !app_nil_r. Qed.

Lemma extend_extend cs1 ls1 cs2 ls2 w :
  extend cs2 ls2 (extend cs1 ls1 w) = extend (cs1 ++ cs2) (ls1 ++ ls2) w.
Proof. unfold extend; simpl. now rewrite !app_assoc. Qed.

Lemma log_call_extend a w : log_call a w = extend [a] [] w.
Proof. unfold log_call, extend. now rewrite app_nil_r. Qed.

Lemma log_line_extend s w : log_line s w = extend [] [s] w.
Proof. unfold log_line, extend. now rewrite app_nil_r. Qed.

End Worlds.

(** Bringing a world to the form [extend cs ls w]. *)
Ltac tidy :=
  simpl fst; simpl snd; cbv iota beta;
  rewrite ?log_line_extend, ?log_call_extend;
  rewrite ?extend_extend; simpl app; rewrite ?app_nil_r; reflexivity.

Section Runs.

Variable git : argv -> result CompletedProcess.
Variable console : str -> option exn.

(** An exception that ends the loop is one that [except Exception] does
    not catch. *)
Lemma say_abort line e : say console line = Abort e -> catchable e = false.
Proof.
  unfold say. destruct (console line) as [e' |]; [| discriminate].
  destruct (catchable e') eqn:C; [discriminate |]. congruence.
Qed.

Lemma hit_abort f e : hit git console f = Abort e -> catchable e = false.
Proof.
  unfold hit. destruct (truthy f); [| discriminate].
  destruct (git (git_show f)) as [shown | e'].
  - destruct (search api_key_re (stdout shown)); [apply say_abort |].
    destruct (search password_re (stdout shown)); [apply say_abort | discriminate].
  - destruct (catchable e') eqn:C; [discriminate |]. congruence.
Qed.

Lemma verdict_abort files e :
  verdict git console files = Abort e -> catchable e = false.
Proof.
  induction files as [| f files IH]; simpl; [discriminate |].
  destruct (hit git console f) eqn:H; [exact IH | discriminate |].
  intro E. rewrite E in H. exact (hit_abort _ H).
Qed.

(** Printing inside the inner [try], after the command was run. *)
Lemma say_eq line w :
  try_except (print console line ;; ret (Some false)) (fun _ => ret None) w =
  (handed (say console line), extend [] (lines_of (say console line)) w).
Proof.
  unfold try_except, bind, print, ret, say.
  destruct (console line) as [e |].
  - destruct (catchable e); simpl; rewrite extend_nil; reflexivity.
  - simpl. rewrite log_line_extend. reflexivity.
Qed.

(** One turn of the loop. *)
Lemma scan_file_eq file_path w :
  scan_file git console file_path w =
  (handed (hit git console file_path),
   extend (fetched [file_path]) (lines_of (hit git console file_path)) w).
Proof.
  unfold scan_file, hit, fetched. simpl.
  destruct (truthy file_path); simpl.
  - unfold try_except at 1. unfold bind at 1. unfold subprocess_run at 1.
    destruct (git (git_show file_path)) as [shown | e]; simpl.
    + destruct (search api_key_re (stdout shown));
        [| destruct (search password_re (stdout shown))].
      * pose proof (say_eq (api_key_msg file_path) (log_call (git_show file_path) w)) as S.
        unfold try_except in S. rewrite S, log_call_extend, extend_extend. reflexivity.
      * pose proof (say_eq (password_msg file_path) (log_call (git_show file_path) w)) as S.
        unfold try_except in S. rewrite S, log_call_extend, extend_extend. reflexivity.
      * unfold ret. simpl. rewrite log_call_extend. reflexivity.
    + destruct (catchable e); unfold ret; simpl; rewrite log_call_extend; reflexivity.
  - unfold ret. rewrite extend_nil. reflexivity.
Qed.

(** The whole loop. *)
Lemma for_each_eq files : forall w,
  for_each git console files w =
  (handed (verdict git console files),
   extend (visited git console files) (lines_of (verdict git console files)) w).
Proof.
  induction files as [| f files IH]; intro w; simpl.
  - unfold ret. now rewrite extend_nil.
  - unfold bind. rewrite scan_file_eq.
    destruct (hit git console f) as [| m | e]; simpl.
    + rewrite IH, extend_extend. reflexivity.
    + unfold ret. rewrite app_nil_r. reflexivity.
    + rewrite app_nil_r. reflexivity.
Qed.

(** The handler of the outer [try]. *)
Lemma handler_eq e w :
  (print console (error_msg e) ;; ret true) w =
  (fst (handled console e), extend [] (snd (handled console e)) w).
Proof.
  unfold bind, print, ret, handled.
  destruct (console (error_msg e)); simpl.
  - rewrite extend_nil. reflexivity.
  - rewrite log_line_extend. reflexivity.
Qed.

(** The whole function. *)
Lemma check_eq w :
  check_staged_files git console w =
  (fst (ending git console),
   extend (git_diff_cached :: visited git console (listed git))
          (snd (ending git console)) w).
Proof.
  unfold check_staged_files, try_except. unfold bind at 1.
  unfold subprocess_run at 1. unfold ending, listed, raised.
  destruct (git git_diff_cached) as [listing | e].
  - unfold bind at 1. rewrite for_each_eq.
    destruct (verdict git console (staged_files (stdout listing))) as [| m | e] eqn:V;
      simpl handed; cbv iota beta.
    + unfold bind at 1. unfold print at 1.
      destruct (console passed_msg) as [e |] eqn:P.
      * destruct (catchable e); [rewrite handler_eq |]; tidy.
      * unfold ret. tidy.
    + unfold ret. tidy.
    + rewrite (verdict_abort _ V). tidy.
  - destruct (catchable e); [rewrite handler_eq |]; tidy.
Qed.

(** [main] turns the value returned into the exit status. *)
Lemma main_of_check ok w w' :
  check_staged_files git console w = (Return ok, w') ->
  main git console w = (Exited (if ok then 0 else 1)%Z, w').
Proof. intro H. unfold main. rewrite H. destruct ok; reflexivity. Qed.

Lemma main_of_raise e w w' :
  check_staged_files git console w = (Raise e, w') ->
  main git console w = (Uncaught e, w').
Proof. intro H. unfold main. rewrite H. reflexivity. Qed.

Lemma main_fst w :
  fst (main git console w) =
  match fst (check_staged_files git console w) with
  | Return ok => Exited (if ok then 0 else 1)%Z
  | Raise e => Uncaught e
  end.
Proof.
  unfold main. destruct (check_staged_files git console w) as [[[|] | e] w'];
    reflexivity.
Qed.

Lemma fetched_app l1 l2 : fetched (l1 ++ l2) = fetched l1 ++ fetched l2.
Proof. unfold fetched. now rewrite filter_app, map_app. Qed.

(** Paths past which the loop goes on are all fetched. *)
Lemma verdict_clean files :
  Forall (clean git console) files ->
  verdict git console files = Next /\ visited git console files = fetched files.
Proof.
  induction 1 as [| f files Hf _ [IHv IHc]]; simpl.
  - split; reflexivity.
  - unfold clean in Hf. rewrite Hf, IHv, IHc.
    split; [reflexivity |]. change (f :: files) with ([f] ++ files).
    now rewrite fetched_app.
Qed.

Lemma verdict_next_iff files :
  verdict git console files = Next <-> Forall (clean git console) files.
Proof.
  split; [| intro H; apply verdict_clean, H].
  induction files as [| f files IH]; simpl; [constructor |].
  destruct (hit git console f) eqn:Hf; try discriminate.
  intro H. constructor; [exact Hf | apply IH, H].
Qed.

(** The first path that stops the loop decides, and nothing after it is
    fetched. *)
Lemma verdict_first_stop pre f post :
  Forall (clean git console) pre -> hit git console f <> Next ->
  verdict git console (pre ++ f :: post) = hit git console f /\
  visited git console (pre ++ f :: post) = fetched pre ++ fetched [f].
Proof.
  intros Hc Hf. induction Hc as [| p pre Hp _ [IHv IHc]]; simpl.
  - destruct (hit git console f); [congruence | |];
      (split; [reflexivity | now rewrite app_nil_r]).
  - unfold clean in Hp. rewrite Hp, IHv, IHc.
    split; [reflexivity |]. change (p :: pre) with ([p] ++ pre).
    now rewrite fetched_app, app_assoc.
Qed.

(** A path past which the loop goes on can be left out of the listing. *)
Lemma verdict_skip pre f post :
  clean git console f ->
  verdict git console (pre ++ f :: post) = verdict git console (pre ++ post).
Proof.
  intro Hf. induction pre as [| p pre IH]; simpl.
  - unfold clean in Hf. now rewrite Hf.
  - now rewrite IH.
Qed.

(** A verdict comes from a path of the listing. *)
Lemma verdict_block_in files m :
  verdict git console files = Block m ->
  exists f, In f files /\ hit git console f = Block m.
Proof.
  induction files as [| g files IH]; simpl; [discriminate |].
  destruct (hit git console g) as [| mg | e] eqn:Hg.
  - intro E. destruct (IH E) as (f & Hin & Hf). exists f. auto.
  - intro E. injection E as ->. exists g. auto.
  - discriminate.
Qed.

(** When only instances of [Exception] are raised, no path ends the loop
    with an exception. *)
Lemma hit_polite f : polite git console -> forall e, hit git console f <> Abort e.
Proof.
  intros [Hg Hc] e H. pose proof (hit_abort _ H) as C.
  unfold hit in H. destruct (truthy f); [| discriminate].
  assert (S : forall line, say console line = Abort e -> False).
  { intros line Hs. unfold say in Hs.
    destruct (console line) as [e' |] eqn:El; [| discriminate].
    rewrite (Hc _ _ El) in Hs. discriminate. }
  destruct (git (git_show f)) as [shown | e'] eqn:Eg.
  - destruct (search api_key_re (stdout shown)); [exact (S _ H) |].
    destruct (search password_re (stdout shown)); [exact (S _ H) | discriminate].
  - rewrite (Hg _ _ Eg) in H. discriminate.
Qed.

Lemma verdict_polite files :
  polite git console -> forall e, verdict git console files <> Abort e.
Proof.
  intros P e. induction files as [| f files IH]; simpl; [discriminate |].
  destruct (hit git console f) as [| m | e'] eqn:H; [exact IH | discriminate |].
  destruct (hit_polite f P H).
Qed.

(** Then the loop blocks as soon as some path of the listing does. *)
Lemma verdict_of_block files f m :
  polite git console -> In f files -> hit git console f = Block m ->
  exists m', verdict git console files = Block m'.
Proof.
  intro P. induction files as [| g files IH]; simpl; intros Hin Hf; [contradiction |].
  destruct (hit git console g) as [| mg | e] eqn:Hg.
  - destruct Hin as [-> | Hin]; [congruence | auto].
  - eauto.
  - destruct (hit_polite g P Hg).
Qed.

(** A path blocks only when it is not empty, its content was fetched, a
    rule matched it and the message of the first rule that matched was
    written. *)
Lemma hit_block_inv f m :
  hit git console f = Block m ->
  truthy f = true /\
  exists shown, git (git_show f) = Return shown /\ console m = None /\
    ((search api_key_re (stdout shown) = true /\ m = api_key_msg f) \/
     (search api_key_re (stdout shown) = false /\
      search password_re (stdout shown) = true /\ m = password_msg f)).
Proof.
  assert (S : forall line, say console line = Block m -> console m = None /\ m = line).
  { intros line Hs. unfold say in Hs.
    destruct (console line) as [e' |] eqn:El.
    - destruct (catchable e'); discriminate.
    - injection Hs as <-. auto. }
  unfold hit. destruct (truthy f); [| discriminate].
  destruct (git (git_show f)) as [shown | e].
  - intro H. split; [reflexivity |]. exists shown. split; [reflexivity |].
    destruct (search api_key_re (stdout shown)).
    + destruct (S _ H) as [Hc ->]. auto.
    + destruct (search password_re (stdout shown)); [| discriminate].
      destruct (S _ H) as [Hc ->]. auto.
  - destruct (catchable e); discriminate.
Qed.

(** A fetched content that a rule matches blocks when the message of the
    first rule that matches can be written. *)
Lemma hit_of_match f shown :
  truthy f = true -> git (git_show f) = Return shown ->
  search api_key_re (stdout shown) || search password_re (stdout shown) = true ->
  console (if search api_key_re (stdout shown) then api_key_msg f
           else password_msg f) = None ->
  hit git console f =
  Block (if search api_key_re (stdout shown) then api_key_msg f else password_msg f).
Proof.
  intros Ht Hg Hm Hc. unfold hit, say. rewrite Ht, Hg.
  destruct (search api_key_re (stdout shown)).
  - rewrite Hc. reflexivity.
  - simpl in Hm. rewrite Hm, Hc. reflexivity.
Qed.

(** The commands of the loop are those of an initial segment of the
    paths that are looked at. *)
Lemma visited_prefix files :
  exists n, visited git console files = firstn n (fetched files).
Proof.
  induction files as [| f files (n & IH)]; simpl.
  - exists O. reflexivity.
  - unfold fetched. simpl. destruct (truthy f) eqn:T; simpl.
    + destruct (hit git console f).
      * exists (S n). simpl. f_equal. exact IH.
      * exists 1%nat. reflexivity.
      * exists 1%nat. reflexivity.
    + unfold hit. rewrite T. exists n. exact IH.
Qed.

(** What the function returns, with its exit status. *)
Lemma check_fst w : fst (check_staged_files git console w) = fst (ending git console).
Proof. rewrite check_eq. reflexivity. Qed.

(** When only instances of [Exception] are raised and the warning can be
    written, the function returns. *)
Lemma ending_returns :
  polite git console -> warns console ->
  exists ok, fst (ending git console) = Return ok.
Proof.
  intros P W. pose proof P as [Hg Hc].
  assert (R : forall e, catchable e = true ->
            exists ok, fst (raised console e) = Return ok).
  { intros e C. unfold raised, handled. rewrite C, (W e). exists true. reflexivity. }
  unfold ending. destruct (git git_diff_cached) as [listing | e] eqn:El.
  - destruct (verdict git console (listed git)) as [| m | e] eqn:V.
    + destruct (console passed_msg) as [e |] eqn:Ep.
      * apply R, (Hc _ _ Ep).
      * exists true. reflexivity.
    + exists false. reflexivity.
    + destruct (verdict_polite _ P V).
  - apply R, (Hg _ _ El).
Qed.

(** The listing is empty exactly when the command printed white space
    only. *)
Lemma staged_files_nil out : staged_files out = [] <-> strip out = [].
Proof.
  unfold staged_files. destruct (strip out) as [| c s] eqn:E; simpl.
  - split; reflexivity.
  - split; [| discriminate]. destruct (c =? LF); [discriminate |].
    destruct (split_lf s); discriminate.
Qed.

End Runs.

Section Agreement.

Variables git git' : argv -> result CompletedProcess.
Variables console console' : str -> option exn.

(** What a listing comes to depends on what each of its paths comes to
    and on nothing else. *)
Lemma verdict_ext files :
  (forall f, In f files -> hit git console f = hit git' console' f) ->
  verdict git console files = verdict git' console' files /\
  visited git console files = visited git' console' files.
Proof.
  induction files as [| f files IH]; simpl; intro H; [split; reflexivity |].
  rewrite <- (H f (or_introl eq_refl)).
  destruct IH as [IHv IHc]; [intros g Hg; apply H; right; exact Hg |].
  rewrite IHv, IHc. split; reflexivity.
Qed.

Lemma hit_same f :
  (truthy f = true -> same_answer git git' (git_show f)) ->
  (forall line, console' line = console line) ->
  hit git console f = hit git' console' f.
Proof.
  unfold same_answer, hit, say. intros H Hc. destruct (truthy f); [| reflexivity].
  specialize (H eq_refl).
  destruct (git (git_show f)) as [r | e], (git' (git_show f)) as [r' | e'];
    try contradiction.
  - rewrite H, !Hc. reflexivity.
  - rewrite H. reflexivity.
Qed.

End Agreement.

Section Doubles.

Lemma lookup_tame files p :
  forallb (fun qr => tame (snd qr)) files = true -> tame (lookup files p) = true.
Proof.
  induction files as [| [q r] files IH]; simpl; [reflexivity |].
  intro H. apply andb_true_iff in H as [Hr Hf].
  destruct (str_eqb p q); auto.
Qed.

Lemma repo_polite listing files console :
  tame listing = true ->
  forallb (fun qr => tame (snd qr)) files = true ->
  (forall line e, console line = Some e -> catchable e = true) ->
  polite (repo listing files) console.
Proof.
  intros Hl Hf Hc. split; [| exact Hc].
  assert (T : forall a, tame (repo listing files a) = true).
  { intro a. unfold repo.
    destruct a as [| x [| y [| z [| u a']]]]; try exact Hl.
    destruct (str_eqb y (lit "show")); [apply lookup_tame, Hf | reflexivity]. }
  intros a e E. specialize (T a). rewrite E in T. exact T.
Qed.

Lemma ascii_stdout_catchable line e :
  ascii_stdout line = Some e -> catchable e = true.
Proof.
  unfold ascii_stdout. destruct (forallb (fun c => c <? 128) line); [discriminate |].
  intro H. injection H as <-. reflexivity.
Qed.

End Doubles.

Section Endings.

Variable git : argv -> result CompletedProcess.
Variable console : str -> option exn.

Lemma listed_return listing :
  git git_diff_cached = Return listing -> listed git = staged_files (stdout listing).
Proof. intro H. unfold listed. rewrite H. reflexivity. Qed.

(** How the function ends once the listing command has returned. *)
Lemma ending_return listing :
  git git_diff_cached = Return listing ->
  ending git console =
  match verdict git console (staged_files (stdout listing)) with
  | Block m => (Return false, [m])
  | Abort e => (Raise e, [])
  | Next =>
      match console passed_msg with
      | None => (Return true, [passed_msg])
      | Some e => raised console e
      end
  end.
Proof. intro H. unfold ending, listed. rewrite H. reflexivity. Qed.

(** A listed, non-empty path whose fetched content a rule matches makes
    the function return [False] when the message can be written and only
    instances of [Exception] are raised. *)
Lemma match_blocks listing f shown :
  polite git console ->
  git git_diff_cached = Return listing ->
  In f (staged_files (stdout listing)) -> truthy f = true ->
  git (git_show f) = Return shown ->
  search api_key_re (stdout shown) || search password_re (stdout shown) = true ->
  console (if search api_key_re (stdout shown) then api_key_msg f
           else password_msg f) = None ->
  fst (ending git console) = Return false.
Proof.
  intros P Hl Hin Ht Hs Hm Hc.
  pose proof (@hit_of_match git console f shown Ht Hs Hm Hc) as Hh.
  destruct (@verdict_of_block git console _ f _ P Hin Hh) as [m Hv].
  rewrite (@ending_return listing Hl), Hv. reflexivity.
Qed.


End Endings.

(* ================================================================== *)
(** * Properties of the audit *)
(* ================================================================== *)

(** C1 does not hold of the code: the message of Rule A is printed inside
    the inner [try], so that on a standard output that cannot take it the
    handler meant for files that cannot be read passes over the file with
    the key.  Here the only staged file holds a key and the standard
    output is ASCII: [check_staged_files] does not return [False]; the
    success marker and the warning cannot be written either and the
    exception of the last [print] leaves the function.  On a standard
    output that takes every line the same staged file blocks. *)
Theorem api_key_unprintable_not_blocked :
  let content := lit "API_KEY = " ++ [dquote] ++ lit "sk-abcdefghijklmnopqrstuvwxyz" ++ [dquote] in
  let git := repo (ok (lit "config.py" ++ [LF])) [(lit "config.py", ok content)] in
  search api_key_re content = true /\
  check_staged_files git ascii_stdout fresh =
    (Raise (Exception (lit "'ascii' codec can't encode character")),
     {| calls := [git_diff_cached; git_show (lit "config.py")]; printed := [] |}) /\
  fst (main git ascii_stdout fresh) =
    Uncaught (Exception (lit "'ascii' codec can't encode character")) /\
  check_staged_files git utf8_stdout fresh =
    (Return false,
     {| calls := [git_diff_cached; git_show (lit "config.py")];
        printed := [[10060] ++ lit " Potential API key found in config.py"] |}).
Proof. vm_compute. repeat split. Qed.

(** C2, as amended: Rule B matches a content exactly when the content can
    be cut as [password] (in any case), a [=] and a quote character further
    on the same line, eight or more characters none of which is a quote
    character of either kind, and a quote character.  A staged content
    with such a cut makes the audit block (when the message can be written
    and only instances of [Exception] are raised); a staged content
    without one, as an assignment of seven characters or fewer that no
    such run follows, is not blocked by Rule B and the audit passes if
    nothing else triggers and the success marker can be written. *)
Theorem password_boundary git console listing f shown w :
  git git_diff_cached = Return listing ->
  In f (staged_files (stdout listing)) -> truthy f = true ->
  git (git_show f) = Return shown ->
  (search password_re (stdout shown) = true <-> has_password_cut (stdout shown)) /\
  (has_password_cut (stdout shown) ->
   polite git console ->
   console (api_key_msg f) = None -> console (password_msg f) = None ->
   fst (check_staged_files git console w) = Return false) /\
  (~ has_password_cut (stdout shown) ->
   search api_key_re (stdout shown) = false ->
   (forall g, In g (staged_files (stdout listing)) -> g <> f -> clean git console g) ->
   console passed_msg = None ->
   fst (check_staged_files git console w) = Return true).
Proof.
  intros Hl Hin Ht Hs. split; [apply password_cut_iff |]. split.
  - intros Hcut P Ha Hp. rewrite check_fst.
    apply (@match_blocks git console listing f shown P Hl Hin Ht Hs).
    + apply password_cut_iff in Hcut. rewrite Hcut. apply orb_true_r.
    + destruct (search api_key_re (stdout shown)); assumption.
  - intros Hcut SA Hothers Hpass. rewrite check_fst, (@ending_return git console listing Hl).
    assert (SB : search password_re (stdout shown) = false).
    { destruct (search password_re (stdout shown)) eqn:S; [| reflexivity].
      destruct (Hcut (proj1 (password_cut_iff _) S)). }
    assert (V : verdict git console (staged_files (stdout listing)) = Next).
    { apply verdict_next_iff, Forall_forall. intros g Hg.
      destruct (list_eq_dec N.eq_dec g f) as [-> | Hne]; [| auto].
      unfold clean, hit. rewrite Ht, Hs, SA, SB. reflexivity. }
    rewrite V, Hpass. reflexivity.
Qed.

Lemma password_boundary_witness :
  let app_py (secret : str) :=
    repo (ok (lit "app.py"))
         [(lit "app.py", ok (lit "password = " ++ [dquote] ++ secret ++ [dquote]))] in
  fst (check_staged_files (app_py (lit "longeno1")) utf8_stdout fresh) = Return false /\
  fst (check_staged_files (app_py (lit "short12")) utf8_stdout fresh) = Return true.
Proof.
  intro app_py.
  pose (shown := fun secret =>
          {| returncode := 0%Z;
             stdout := lit "password = " ++ [dquote] ++ secret ++ [dquote] |}).
  split.
  - apply (proj1 (proj2 (@password_boundary (app_py (lit "longeno1")) utf8_stdout
                    {| returncode := 0; stdout := lit "app.py" |} (lit "app.py")
                    (shown (lit "longeno1")) fresh
                    eq_refl (or_introl eq_refl) eq_refl eq_refl))).
    + exists {| before := []; token := lit "password"; gap1 := lit " "; gap2 := lit " ";
                opening := dquote; quoted := lit "longeno1"; closing := dquote;
                after := [] |}.
      repeat split. vm_compute. lia.
    + apply repo_polite; [reflexivity | reflexivity | discriminate].
    + reflexivity.
    + reflexivity.
  - apply (proj2 (proj2 (@password_boundary (app_py (lit "short12")) utf8_stdout
                    {| returncode := 0; stdout := lit "app.py" |} (lit "app.py")
                    (shown (lit "short12")) fresh
                    eq_refl (or_introl eq_refl) eq_refl eq_refl))).
    + intro Hcut. apply password_cut_iff in Hcut. vm_compute in Hcut. discriminate.
    + reflexivity.
    + intros g [<- | []] Hne. destruct (Hne eq_refl).
    + reflexivity.
Defined.

(** C2 as stated fails: a quoted string of seven characters after
    [password=] still blocks when a later quote character follows its
    closing one at a distance of eight characters or more. *)
Lemma password_7_chars_blocks :
  let a := {| before := []; token := lit "password"; gap1 := []; gap2 := [];
              opening := dquote; quoted := lit "abc1234"; closing := dquote;
              after := lit " if debug else " ++ [dquote] ++ lit "x" ++ [dquote] |} in
  let git := repo (ok (lit "app.py")) [(lit "app.py", ok (text_of a))] in
  is_password_assignment a = true /\ length (quoted a) = 7%nat /\
  search password_re (text_of a) = true /\
  check_staged_files git utf8_stdout fresh =
    (Return false,
     {| calls := [git_diff_cached; git_show (lit "app.py")];
        printed := [[10060] ++ lit " Potential hardcoded password in app.py"] |}) /\
  fst (main git utf8_stdout fresh) = Exited 1.
Proof. vm_compute. repeat split. Qed.

(** C3, as amended: when the listing command raises an [Exception] and
    the warning can be written, the audit prints the warning, which ends
    with the text of the exception, returns [True] and the process exits
    with status 0; the same happens when it is the printing of the success
    marker that raises.  A listing command that ends with a non-zero
    status raises nothing and its status is never looked at: the run is
    the one that the same output gives with any other status, the output
    is read as the listing, so that a listed file that a rule matches
    blocks, and with no output the success marker is printed. *)
Theorem listing_failure_fail_open git console w :
  (forall e, git git_diff_cached = Raise e -> catchable e = true ->
     console ([9888; 65039] ++ lit " Security audit error: " ++ message e) = None ->
     check_staged_files git console w =
       (Return true,
        extend [git_diff_cached]
               [[9888; 65039] ++ lit " Security audit error: " ++ message e] w) /\
     fst (main git console w) = Exited 0) /\
  (forall listing e, git git_diff_cached = Return listing ->
     Forall (clean git console) (staged_files (stdout listing)) ->
     console passed_msg = Some e -> catchable e = true ->
     console ([9888; 65039] ++ lit " Security audit error: " ++ message e) = None ->
     check_staged_files git console w =
       (Return true,
        extend (git_diff_cached :: fetched (staged_files (stdout listing)))
               [[9888; 65039] ++ lit " Security audit error: " ++ message e] w) /\
     fst (main git console w) = Exited 0) /\
  (forall git' listing listing',
     git git_diff_cached = Return listing ->
     git' git_diff_cached = Return listing' ->
     stdout listing' = stdout listing ->
     (forall p, git' (git_show p) = git (git_show p)) ->
     check_staged_files git' console w = check_staged_files git console w) /\
  (forall listing f shown, git git_diff_cached = Return listing ->
     returncode listing <> 0%Z -> polite git console ->
     In f (staged_files (stdout listing)) -> truthy f = true ->
     git (git_show f) = Return shown ->
     search api_key_re (stdout shown) || search password_re (stdout shown) = true ->
     console (if search api_key_re (stdout shown) then api_key_msg f
              else password_msg f) = None ->
     fst (check_staged_files git console w) = Return false) /\
  (forall listing, git git_diff_cached = Return listing ->
     returncode listing <> 0%Z -> staged_files (stdout listing) = [] ->
     console ([9989] ++ lit " Security audit passed") = None ->
     check_staged_files git console w =
       (Return true,
        extend [git_diff_cached] [[9989] ++ lit " Security audit passed"] w)).
Proof.
  split; [| split; [| split; [| split]]].
  - intros e Hl C Hw.
    assert (E : check_staged_files git console w =
                (Return true, extend [git_diff_cached] [error_msg e] w)).
    { assert (Hw' : console (error_msg e) = None) by exact Hw.
      rewrite check_eq. unfold ending, listed, raised, handled.
      rewrite Hl, C, Hw'. reflexivity. }
    split; [exact E |]. rewrite (@main_of_check git console true w _ E). reflexivity.
  - intros listing e Hl Hc Hp C Hw.
    destruct (@verdict_clean git console _ Hc) as [Hv Hvis].
    assert (E : check_staged_files git console w =
                (Return true,
                 extend (git_diff_cached :: fetched (staged_files (stdout listing)))
                        [error_msg e] w)).
    { rewrite check_eq, (@ending_return git console listing Hl).
      rewrite (@listed_return git listing Hl), Hv, Hvis, Hp.
      assert (Hw' : console (error_msg e) = None) by exact Hw.
      unfold raised, handled. rewrite C, Hw'. reflexivity. }
    split; [exact E |]. rewrite (@main_of_check git console true w _ E). reflexivity.
  - intros git' listing listing' Hl Hl' Hout Hsame.
    assert (L : listed git' = listed git).
    { rewrite (@listed_return git listing Hl), (@listed_return git' listing' Hl').
      rewrite Hout. reflexivity. }
    destruct (@verdict_ext git' git console console (listed git)) as [Hv Hvis].
    { intros f _. unfold hit.
      rewrite (Hsame f). reflexivity. }
    rewrite !check_eq. unfold ending. rewrite Hl, Hl', L, Hv, Hvis. reflexivity.
  - intros listing f shown Hl _ P Hin Ht Hs Hm Hc. rewrite check_fst.
    exact (@match_blocks git console listing f shown P Hl Hin Ht Hs Hm Hc).
  - intros listing Hl _ Hnil Hp.
    assert (Hp' : console passed_msg = None) by exact Hp.
    rewrite check_eq, (@ending_return git console listing Hl).
    rewrite (@listed_return git listing Hl), Hnil. simpl. rewrite Hp'. reflexivity.
Qed.

Lemma listing_failure_fail_open_witness :
  let gone := Exception (lit "[Errno 2] No such file or directory: 'git'") in
  let down := repo (Raise gone) [] in
  let files := [(lit "env.py", ok (lit "TOKEN = 'sk-" ++ lit "0123456789abcdefghij'"))] in
  check_staged_files down utf8_stdout fresh =
    (Return true,
     extend [git_diff_cached]
            [[9888; 65039] ++ lit " Security audit error: " ++ message gone] fresh) /\
  check_staged_files (repo (Return {| returncode := 1; stdout := lit "env.py" |}) files)
                     utf8_stdout fresh =
  check_staged_files (repo (ok (lit "env.py")) files) utf8_stdout fresh.
Proof.
  intros gone down files. split.
  - apply (proj1 (listing_failure_fail_open down utf8_stdout fresh) gone);
      reflexivity.
  - apply (proj1 (proj2 (proj2 (listing_failure_fail_open
                           (repo (ok (lit "env.py")) files) utf8_stdout fresh)))
             (repo (Return {| returncode := 1; stdout := lit "env.py" |}) files)
             {| returncode := 0; stdout := lit "env.py" |}
             {| returncode := 1; stdout := lit "env.py" |});
      reflexivity.
Defined.

(** C3 as stated fails: a listing command that ends with status 128 and
    no output (no repository here) leads to the success marker, not to a
    warning; and one that ends with status 1 after it has named a file
    with a key blocks the commit. *)
Lemma listing_nonzero_exit_no_warning :
  let outside := repo (Return {| returncode := 128; stdout := [] |}) [] in
  let partial :=
    repo (Return {| returncode := 1; stdout := lit "env.py" |})
         [(lit "env.py", ok (lit "TOKEN = 'sk-" ++ lit "0123456789abcdefghij'"))] in
  fst (check_staged_files outside utf8_stdout fresh) = Return true /\
  printed (snd (check_staged_files outside utf8_stdout fresh))
    = [[9989] ++ lit " Security audit passed"] /\
  existsb is_warning (printed (snd (check_staged_files outside utf8_stdout fresh)))
    = false /\
  fst (main partial utf8_stdout fresh) = Exited 1.
Proof. vm_compute. repeat split. Qed.

(** C4 does not hold of the code when the block message cannot be
    written: the same handler of the inner [try] that passes over unreadable
    files takes the exception of [print], and the loop goes on to fetch
    the paths after the one that matched.  Here the first of two staged
    files holds a key and the standard output is ASCII: the second file
    is fetched all the same and nothing is printed.  On a standard output
    that takes every line the run stops at the first file and names
    it. *)
Theorem match_unprintable_scan_goes_on :
  let git := repo (ok (lit "a_key.py" ++ [LF] ++ lit "b.txt" ++ [LF]))
                  [(lit "a_key.py", ok (lit "key = 'sk-" ++ lit "0123456789abcdefghij'"));
                   (lit "b.txt", ok (lit "hello"))] in
  check_staged_files git ascii_stdout fresh =
    (Raise (Exception (lit "'ascii' codec can't encode character")),
     {| calls := [git_diff_cached; git_show (lit "a_key.py"); git_show (lit "b.txt")];
        printed := [] |}) /\
  check_staged_files git utf8_stdout fresh =
    (Return false,
     {| calls := [git_diff_cached; git_show (lit "a_key.py")];
        printed := [[10060] ++ lit " Potential API key found in a_key.py"] |}).
Proof. vm_compute. repeat split. Qed.

(** C5: a staged path whose content cannot be had is passed over in
    silence: the run ends as the same run without that path in the
    listing does, with the same lines printed, so the audit is not
    aborted (it returns whenever only instances of [Exception] are raised
    and the warning can be written); and when nothing before the path
    stops the loop, the paths after it are scanned as usual. *)
Theorem unreadable_file_skipped git git' console listing listing' pre f post w :
  git git_diff_cached = Return listing ->
  staged_files (stdout listing) = pre ++ f :: post ->
  unreadable git f ->
  git' git_diff_cached = Return listing' ->
  staged_files (stdout listing') = pre ++ post ->
  (forall p, git' (git_show p) = git (git_show p)) ->
  fst (check_staged_files git console w) = fst (check_staged_files git' console w) /\
  (polite git console -> warns console ->
   exists ok, fst (check_staged_files git console w) = Return ok /\
              fst (check_staged_files git' console w) = Return ok) /\
  printed (snd (check_staged_files git console w)) =
    printed (snd (check_staged_files git' console w)) /\
  (Forall (clean git console) pre ->
   calls (snd (check_staged_files git console w)) =
     calls w ++ git_diff_cached :: fetched pre ++ fetched [f]
       ++ visited git console post).
Proof.
  intros Hl Hfiles Hu Hl' Hfiles' Hsame.
  assert (Hf : clean git console f).
  { unfold clean, hit. destruct (truthy f); [| reflexivity].
    destruct Hu as [(e & C & ->) | (status & _ & ->)]; [rewrite C |]; reflexivity. }
  assert (Hv : verdict git' console (pre ++ post)
               = verdict git console (pre ++ f :: post)).
  { rewrite (@verdict_skip git console pre f post Hf).
    apply (@verdict_ext git' git console console). intros g _. unfold hit.
    rewrite Hsame. reflexivity. }
  assert (E : ending git console = ending git' console).
  { rewrite (@ending_return git console listing Hl).
    rewrite (@ending_return git' console listing' Hl').
    rewrite Hfiles, Hfiles', Hv. reflexivity. }
  rewrite !check_eq. simpl fst. simpl snd. unfold extend. simpl calls. simpl printed.
  rewrite E. split; [reflexivity |]. split; [| split; [reflexivity |]].
  - intros P W. destruct (@ending_returns git console P W) as [ok Hok].
    exists ok. rewrite <- E. auto.
  - intro Hpre. f_equal. f_equal.
    rewrite (@listed_return git listing Hl), Hfiles. clear Hv E Hfiles Hfiles'.
    induction Hpre as [| p pre Hp _ IH]; simpl.
    + unfold clean in Hf. rewrite Hf. reflexivity.
    + unfold clean in Hp. rewrite Hp, IH.
      change (p :: pre) with ([p] ++ pre).
      rewrite fetched_app, <- app_assoc. reflexivity.
Qed.

Lemma unreadable_file_skipped_witness :
  let secret := ok (lit "password = 'correct horse battery'") in
  let binary := Raise (Exception (lit "'utf-8' codec can't decode byte 0x89")) in
  let files := [(lit "logo.png", binary); (lit "db.py", secret)] in
  let git := repo (ok (lit "logo.png" ++ [LF] ++ lit "db.py")) files in
  let git' := repo (ok (lit "db.py")) files in
  fst (check_staged_files git utf8_stdout fresh)
    = fst (check_staged_files git' utf8_stdout fresh) /\
  (polite git utf8_stdout -> warns utf8_stdout ->
   exists ok, fst (check_staged_files git utf8_stdout fresh) = Return ok /\
              fst (check_staged_files git' utf8_stdout fresh) = Return ok) /\
  printed (snd (check_staged_files git utf8_stdout fresh)) =
    printed (snd (check_staged_files git' utf8_stdout fresh)) /\
  (Forall (clean git utf8_stdout) [] ->
   calls (snd (check_staged_files git utf8_stdout fresh)) =
     calls fresh ++ git_diff_cached :: fetched [] ++ fetched [lit "logo.png"]
       ++ visited git utf8_stdout [lit "db.py"]).
Proof.
  intros secret binary files git git'.
  apply (@unreadable_file_skipped git git' utf8_stdout
           {| returncode := 0; stdout := lit "logo.png" ++ [LF] ++ lit "db.py" |}
           {| returncode := 0; stdout := lit "db.py" |}
           [] (lit "logo.png") [lit "db.py"] fresh).
  - reflexivity.
  - reflexivity.
  - left. exists (Exception (lit "'utf-8' codec can't decode byte 0x89")).
    split; reflexivity.
  - reflexivity.
  - reflexivity.
  - intro p. reflexivity.
Defined.




(** C7 does not hold of the code when the success marker cannot be
    written: the handler of the outer [try] takes the exception of [print]
    and prints the warning outside any [try], so that a second failure
    leaves the function although the handler is there to let the commit
    through.  Here nothing is staged and the standard output is ASCII:
    nothing is printed and the process ends with an exception at the top
    level.  On a standard output that takes every line the audit
    passes. *)
Theorem empty_listing_unprintable :
  let git := repo (ok []) [] in
  staged_files [] = [] /\
  check_staged_files git ascii_stdout fresh =
    (Raise (Exception (lit "'ascii' codec can't encode character")),
     {| calls := [git_diff_cached]; printed := [] |}) /\
  fst (main git ascii_stdout fresh) =
    Uncaught (Exception (lit "'ascii' codec can't encode character")) /\
  main git utf8_stdout fresh =
    (Exited 0,
     {| calls := [git_diff_cached];
        printed := [[9989] ++ lit " Security audit passed"] |}).
Proof. vm_compute. repeat split. Qed.

(** C8, as amended: a line of the content that Rule B matches makes Rule B
    match the content; and a match in the content has its token, its [=]
    and its opening quote character on one line, whereas the eight or more
    characters that follow and the closing quote character may lie on later
    lines. *)
Theorem password_match_lines content :
  ((exists line, In line (split_lf content) /\ search password_re line = true) ->
   search password_re content = true) /\
  (search password_re content = true ->
   exists a, content = text_of a /\ is_password_assignment a = true /\
             (8 <= length (quoted a))%nat /\ forallb not_lf (head_of a) = true).
Proof.
  split.
  - intros (line & Hin & S).
    destruct (@In_split_lf content line Hin) as (a & b & ->).
    apply search_infix, S.
  - intro S. apply search_spec in S as (x & m & y & -> & L).
    apply password_lang in L
      as (tok & m1 & m2 & q1 & bd & q2 & -> & Ht & H1 & H2 & Hq1 & Hn & Hbd & Hq2).
    exists {| before := x; token := tok; gap1 := m1; gap2 := m2; opening := q1;
              quoted := bd; closing := q2; after := y |}.
    unfold text_of, head_of, is_password_assignment.
    cbn [before token gap1 gap2 opening quoted closing after].
    rewrite Ht, H1, H2, Hq1, Hbd, Hq2. repeat split.
    + reassoc.
    + exact Hn.
    + rewrite !forallb_app, H1, H2.
      rewrite (@same_word_ci_not_lf (lit "password") tok eq_refl Ht). simpl.
      unfold is_quote, squote, dquote in Hq1. unfold not_lf, LF.
      apply orb_true_iff in Hq1. rewrite !N.eqb_eq in Hq1.
      destruct Hq1 as [-> | ->]; reflexivity.
Qed.

Lemma password_match_lines_witness :
  let content := lit "user = 'admin'" ++ [LF] ++ lit "PASSWORD = 'hunter2hunter2'" in
  search password_re content = true /\
  exists a, content = text_of a /\ is_password_assignment a = true /\
            (8 <= length (quoted a))%nat /\ forallb not_lf (head_of a) = true.
Proof.
  intro content.
  assert (S : search password_re content = true).
  { apply (proj1 (password_match_lines content)).
    exists (lit "PASSWORD = 'hunter2hunter2'"). split.
    - vm_compute. right. left. reflexivity.
    - reflexivity. }
  split; [exact S | exact (proj2 (password_match_lines content) S)].
Defined.

(** C8 as stated fails: Rule B matches this content of two lines and
    neither of its lines, the match running from the closing quote
    character of the first line to the opening one of the second. *)
Lemma password_match_spans_lines :
  let content := lit "password = 'abc'" ++ [LF] ++ lit "username = 'admin'" in
  search password_re content = true /\
  split_lf content = [lit "password = 'abc'"; lit "username = 'admin'"] /\
  forallb (fun line => negb (search password_re line)) (split_lf content) = true /\
  fst (check_staged_files (repo (ok (lit "conf.py")) [(lit "conf.py", ok content)])
                          utf8_stdout fresh)
    = Return false.
Proof. vm_compute. repeat split. Qed.

(** C9 does not hold of the code when the block message cannot be
    written, for the reason C1 does not: the message of Rule B is printed
    inside the inner [try].  Here the only staged file assigns a string
    opened by a single and closed by a double quote and the standard output
    is ASCII: Rule B matches, and [check_staged_files] does not return
    [False].  On a standard output that takes every line the same file
    blocks. *)
Theorem mismatched_quotes_unprintable_not_blocked :
  let content := lit "password = 'abcdefgh" ++ [dquote] in
  let git := repo (ok (lit "settings.py" ++ [LF])) [(lit "settings.py", ok content)] in
  search password_re content = true /\
  check_staged_files git ascii_stdout fresh =
    (Raise (Exception (lit "'ascii' codec can't encode character")),
     {| calls := [git_diff_cached; git_show (lit "settings.py")]; printed := [] |}) /\
  fst (main git ascii_stdout fresh) =
    Uncaught (Exception (lit "'ascii' codec can't encode character")) /\
  check_staged_files git utf8_stdout fresh =
    (Return false,
     {| calls := [git_diff_cached; git_show (lit "settings.py")];
        printed := [[10060] ++ lit " Potential hardcoded password in settings.py"] |}).
Proof. vm_compute. repeat split. Qed.

(** C10, as amended: two runs in which the listing command and [git show]
    for every non-empty path of the listing answer alike (the same
    standard output, or the same exception) and in which the standard
    output takes and refuses the same lines return the same value or raise
    the same exception, print the same lines and run the same commands. *)
Theorem audit_deterministic git git' console console' w :
  same_answer git git' git_diff_cached ->
  (forall p, In p (listed git) -> truthy p = true ->
     same_answer git git' (git_show p)) ->
  (forall line, console' line = console line) ->
  check_staged_files git console w = check_staged_files git' console' w.
Proof.
  intros Hl Hshow Hc.
  assert (L : listed git' = listed git).
  { unfold listed. unfold same_answer in Hl.
    destruct (git git_diff_cached) as [l | e], (git' git_diff_cached) as [l' | e'];
      try contradiction; [rewrite Hl |]; reflexivity. }
  destruct (@verdict_ext git git' console console' (listed git)) as [Hv Hvis].
  { intros f Hin. apply hit_same; [intro Ht; apply Hshow; assumption | exact Hc]. }
  assert (R : forall e, raised console' e = raised console e).
  { intro e. unfold raised, handled. rewrite Hc. reflexivity. }
  rewrite !check_eq. unfold ending. rewrite L, <- Hv, <- Hvis, Hc.
  unfold same_answer in Hl.
  destruct (git git_diff_cached) as [l | e], (git' git_diff_cached) as [l' | e'];
    try contradiction.
  - destruct (verdict git console (listed git)); try reflexivity.
    destruct (console passed_msg); [rewrite R |]; reflexivity.
  - subst e'. rewrite R. reflexivity.
Qed.

Lemma audit_deterministic_witness :
  let content := lit "password = 'sw0rdf1sh!'" in
  let git := repo (Return {| returncode := 0; stdout := lit "db.py" |})
                  [(lit "db.py", Return {| returncode := 0; stdout := content |})] in
  let git' := repo (Return {| returncode := 1; stdout := lit "db.py" |})
                   [(lit "db.py", Return {| returncode := 3; stdout := content |});
                    (lit "other.py", Raise (BaseException (lit "KeyboardInterrupt")))] in
  check_staged_files git ascii_stdout fresh
  = check_staged_files git' (fun line => ascii_stdout line) fresh.
Proof.
  intros content git git'.
  apply (@audit_deterministic git git' ascii_stdout (fun line => ascii_stdout line) fresh).
  - reflexivity.
  - intros p [<- | []] _. reflexivity.
  - intro line. reflexivity.
Defined.

(** C10 as stated fails: the same answers of the collaborator give two
    different runs on two standard outputs. *)
Lemma same_answers_other_stdout :
  let git := repo (ok []) [] in
  check_staged_files git utf8_stdout fresh =
    (Return true,
     {| calls := [git_diff_cached];
        printed := [[9989] ++ lit " Security audit passed"] |}) /\
  check_staged_files git ascii_stdout fresh =
    (Raise (Exception (lit "'ascii' codec can't encode character")),
     {| calls := [git_diff_cached]; printed := [] |}).
Proof. vm_compute. split; reflexivity. Qed.

(* ================================================================== *)
(** * Further properties of the code *)
(* ================================================================== *)

(** X1: [check_staged_files] returns [False] only when the listing
    command returned and some non-empty path of the listing has a fetched
    content for which the message of the first rule that matches (Rule A,
    or else Rule B) could be written; and when only instances of
    [Exception] are raised, it returns [False] whenever there is such a
    path. *)
Theorem blocks_iff_some_match git console w :
  (fst (check_staged_files git console w) = Return false ->
   exists f shown,
     In f (listed git) /\ truthy f = true /\
     git (git_show f) = Return shown /\
     ((search api_key_re (stdout shown) = true /\
       console (api_key_msg f) = None) \/
      (search api_key_re (stdout shown) = false /\
       search password_re (stdout shown) = true /\
       console (password_msg f) = None))) /\
  (polite git console ->
   (exists f shown,
     In f (listed git) /\ truthy f = true /\
     git (git_show f) = Return shown /\
     ((search api_key_re (stdout shown) = true /\
       console (api_key_msg f) = None) \/
      (search api_key_re (stdout shown) = false /\
       search password_re (stdout shown) = true /\
       console (password_msg f) = None))) ->
   fst (check_staged_files git console w) = Return false).
Proof.
  split.
  - rewrite check_fst. unfold ending, raised, handled.
    destruct (git git_diff_cached) as [listing | e] eqn:Hl.
    + destruct (verdict git console (listed git)) as [| m | e] eqn:V.
      * destruct (console passed_msg) as [e |]; [| discriminate].
        destruct (catchable e); [| discriminate].
        destruct (console (error_msg e)); discriminate.
      * intros _. destruct (@verdict_block_in git console _ m V) as (f & Hin & Hf).
        destruct (@hit_block_inv git console f m Hf)
          as (Ht & shown & Hs & Hc & [[SA ->] | (SA & SB & ->)]);
          exists f, shown; auto 10.
      * discriminate.
    + destruct (catchable e); [| discriminate].
      destruct (console (error_msg e)); discriminate.
  - intros P (f & shown & Hin & Ht & Hs & Hm). rewrite check_fst.
    destruct (git git_diff_cached) as [listing | e] eqn:Hl;
      [| unfold listed in Hin; rewrite Hl in Hin; destruct Hin].
    rewrite (@listed_return git listing Hl) in Hin.
    apply (@match_blocks git console listing f shown P Hl Hin Ht Hs).
    + destruct Hm as [[-> _] | (_ & -> & _)]; [reflexivity | apply orb_true_r].
    + destruct Hm as [[-> Hc] | (-> & _ & Hc)]; exact Hc.
Qed.

Lemma blocks_iff_some_match_witness :
  let git := repo (ok (lit "notes.txt" ++ [LF] ++ lit "db.py"))
                  [(lit "notes.txt", ok (lit "nothing"));
                   (lit "db.py", ok (lit "PASSWORD = 'opensesame'"))] in
  fst (check_staged_files git utf8_stdout fresh) = Return false.
Proof.
  intro git.
  apply (proj2 (blocks_iff_some_match git utf8_stdout fresh)).
  - apply repo_polite; [reflexivity | reflexivity | discriminate].
  - exists (lit "db.py"), {| returncode := 0; stdout := lit "PASSWORD = 'opensesame'" |}.
    split; [right; left; reflexivity |]. split; [reflexivity |].
    split; [reflexivity |]. right. repeat split.
Defined.

(** X2: when no fetched content of a listed path is matched by either
    rule, no [git show] raises anything but an [Exception] and the success
    marker can be written, the audit fetches every non-empty path of the
    listing once, in the order of the listing, prints the success marker
    alone, returns [True] and the process exits with status 0. *)
Theorem clean_run_fetches_all git console listing w :
  git git_diff_cached = Return listing ->
  (forall f, In f (staged_files (stdout listing)) ->
     match git (git_show f) with
     | Return shown =>
         search api_key_re (stdout shown) = false /\
         search password_re (stdout shown) = false
     | Raise e => catchable e = true
     end) ->
  console ([9989] ++ lit " Security audit passed") = None ->
  check_staged_files git console w =
    (Return true,
     extend (git_diff_cached :: fetched (staged_files (stdout listing)))
            [[9989] ++ lit " Security audit passed"] w) /\
  fst (main git console w) = Exited 0.
Proof.
  intros Hl Hclean Hp.
  assert (Hc : Forall (clean git console) (staged_files (stdout listing))).
  { apply Forall_forall. intros f Hin. unfold clean, hit.
    destruct (truthy f); [| reflexivity]. specialize (Hclean f Hin).
    destruct (git (git_show f)) as [shown | e].
    - destruct Hclean as [-> ->]. reflexivity.
    - rewrite Hclean. reflexivity. }
  destruct (@verdict_clean git console _ Hc) as [Hv Hvis].
  assert (Hp' : console passed_msg = None) by exact Hp.
  assert (E : check_staged_files git console w =
              (Return true,
               extend (git_diff_cached :: fetched (staged_files (stdout listing)))
                      [passed_msg] w)).
  { rewrite check_eq, (@ending_return git console listing Hl).
    rewrite (@listed_return git listing Hl), Hv, Hvis, Hp'. reflexivity. }
  split; [exact E |]. rewrite (@main_of_check git console true w _ E). reflexivity.
Qed.

Lemma clean_run_fetches_all_witness :
  let git := repo (ok (lit "a.py" ++ [LF; LF] ++ lit "b.py" ++ [LF]))
                  [(lit "a.py", ok (lit "password = 'short'"));
                   (lit "b.py", Raise (Exception (lit "not text")))] in
  check_staged_files git utf8_stdout fresh =
    (Return true,
     extend [git_diff_cached; git_show (lit "a.py"); git_show (lit "b.py")]
            [[9989] ++ lit " Security audit passed"] fresh) /\
  fst (main git utf8_stdout fresh) = Exited 0.
Proof.
  intro git.
  apply (@clean_run_fetches_all git utf8_stdout
           {| returncode := 0; stdout := lit "a.py" ++ [LF; LF] ++ lit "b.py" ++ [LF] |}
           fresh).
  - reflexivity.
  - intros f [<- | [<- | [<- | []]]]; vm_compute; auto.
  - reflexivity.
Defined.

(** X3: Rule A finds something in a content exactly when the content
    holds [sk-] in lower case followed by twenty or more ASCII letters or
    digits. *)
Theorem api_key_rule_exact content :
  search api_key_re content = true <->
  exists pre key post,
    content = pre ++ lit "sk-" ++ key ++ post /\
    (20 <= length key)%nat /\ forallb alnum key = true.
Proof.
  rewrite search_spec. split.
  - intros (pre & m & post & -> & L).
    apply api_key_lang in L as (key & -> & H).
    exists pre, key, post. split; [| exact H].
    rewrite <- app_assoc. reflexivity.
  - intros (pre & key & post & -> & H).
    exists pre, (lit "sk-" ++ key), post. split.
    + rewrite <- app_assoc. reflexivity.
    + apply api_key_lang. exists key. split; [reflexivity | exact H].
Qed.

(** X4: Rule B finds something in a content exactly when the content can
    be cut as an assignment to [password], in any case, of eight or more
    characters between two quote characters, with the [=] and the quote
    character that opens on the line of the token. *)
Theorem password_rule_exact content :
  search password_re content = true <->
  exists a, content = text_of a /\ is_password_assignment a = true /\
            (8 <= length (quoted a))%nat.
Proof.
  split.
  - intro S. apply search_spec in S as (x & m & y & -> & L).
    apply password_lang in L
      as (tok & m1 & m2 & q1 & bd & q2 & -> & Ht & H1 & H2 & Hq1 & Hn & Hbd & Hq2).
    exists {| before := x; token := tok; gap1 := m1; gap2 := m2; opening := q1;
              quoted := bd; closing := q2; after := y |}.
    unfold text_of, head_of, is_password_assignment.
    cbn [before token gap1 gap2 opening quoted closing after].
    rewrite Ht, H1, H2, Hq1, Hbd, Hq2. repeat split; [reassoc | exact Hn].
  - intros (a & -> & Ha & Hn). apply assignment_matches; assumption.
Qed.

(** X5: a content of fewer than 23 characters is never matched by Rule A,
    and one of fewer than 19 characters never by Rule B. *)
Theorem short_content_never_matches content :
  ((length content < 23)%nat -> search api_key_re content = false) /\
  ((length content < 19)%nat -> search password_re content = false).
Proof.
  split; intro Hlen.
  - destruct (search api_key_re content) eqn:S; [| reflexivity]. exfalso.
    apply search_spec in S as (x & m & y & -> & L).
    apply api_key_lang in L as (key & -> & Hn & _).
    rewrite !length_app in Hlen. simpl in Hlen. lia.
  - destruct (search password_re content) eqn:S; [| reflexivity]. exfalso.
    apply search_spec in S as (x & m & y & -> & L).
    apply password_lang in L
      as (tok & m1 & m2 & q1 & bd & q2 & -> & Ht & _ & _ & _ & Hn & _ & _).
    apply same_word_ci_length in Ht.
    rewrite !length_app in Hlen. simpl in Hlen, Ht. lia.
Qed.

Lemma short_content_never_matches_witness :
  search api_key_re (lit "sk-abcdefghijklmnopqrs") = false /\
  search password_re (lit "password='1234567'") = false.
Proof.
  split.
  - apply (proj1 (short_content_never_matches (lit "sk-abcdefghijklmnopqrs"))).
    vm_compute. lia.
  - apply (proj2 (short_content_never_matches (lit "password='1234567'"))).
    vm_compute. lia.
Defined.

(** X6: the listing survives the way it is read: for paths without a
    line feed, the first of which starts and the last of which ends with
    a character that is no white space, what the listing command prints
    (every path followed by a line feed) is read back as these paths. *)
Theorem listing_round_trip paths :
  Forall (fun p => forallb not_lf p = true) paths ->
  starts_clean (hd [] paths) = true ->
  ends_clean (last paths []) = true ->
  staged_files (listing_of paths) = paths.
Proof.
  intros Hlf Hs He.
  destruct paths as [| l init _] using rev_ind; [discriminate |].
  rewrite last_last in He.
  assert (Hj : starts_clean (join_lf (init ++ [l])) = true).
  { destruct init as [| f init']; simpl in Hs |- *; [exact Hs |].
    apply (starts_clean_join f (init' ++ [l]) Hs). }
  assert (Hk : ends_clean (join_lf (init ++ [l])) = true)
    by (rewrite join_lf_last; apply ends_clean_app, He).
  transitivity (split_lf (join_lf (init ++ [l]))).
  - rewrite listing_of_last. apply staged_files_clean; assumption.
  - apply split_join_lf; [destruct init; discriminate | exact Hlf].
Qed.

Lemma listing_round_trip_witness :
  staged_files (listing_of [lit "src/a b.py"; []; lit " c.txt"])
  = [lit "src/a b.py"; []; lit " c.txt"].
Proof.
  apply (@listing_round_trip [lit "src/a b.py"; []; lit " c.txt"]).
  - repeat constructor.
  - reflexivity.
  - reflexivity.
Defined.

(** X7: the paths read from the output of the listing command hold no
    line feed and, joined by line feeds, give the output without the white
    space around it; the first of them starts and the last ends with a
    character that is no white space, so both are non-empty and an empty
    path can only come from a blank line inside the output. *)
Theorem staged_files_shape out :
  join_lf (staged_files out) = strip out /\
  Forall (fun p => forallb not_lf p = true) (staged_files out) /\
  (staged_files out <> [] ->
   starts_clean (hd [] (staged_files out)) = true /\
   ends_clean (last (staged_files out) []) = true).
Proof.
  unfold staged_files.
  destruct (strip_decompose out) as (ws1 & ws2 & _ & _ & _ & Hends).
  destruct (strip out) as [| c t] eqn:E; simpl truthy; cbv iota.
  - split; [reflexivity |]. split; [constructor |]. intro H. destruct (H eq_refl).
  - destruct Hends as [Hnil | [Hs He]]; [discriminate |].
    pose proof (join_split_lf (c :: t)) as J.
    split; [exact J |]. split; [apply split_lf_no_lf |]. intros _.
    destruct (split_lf (c :: t)) as [| l init _] using rev_ind; [discriminate |].
    rewrite last_last. rewrite <- J in Hs, He. split.
    + destruct init as [| f init']; simpl hd.
      * exact Hs.
      * exact (starts_clean_first f (init' ++ [l]) Hs).
    + exact (ends_clean_last init l He).
Qed.

Lemma staged_files_shape_witness :
  let out := [LF; 32] ++ lit "a.py" ++ [LF; LF] ++ lit "b c.py" ++ [32; LF] in
  staged_files out = [lit "a.py"; []; lit "b c.py"] /\
  starts_clean (hd [] (staged_files out)) = true /\
  ends_clean (last (staged_files out) []) = true.
Proof.
  intro out. split; [reflexivity |].
  apply (proj2 (proj2 (staged_files_shape out))). discriminate.
Defined.

(** X8: white space around the output of the listing command changes
    nothing to the paths read from it. *)
Theorem surrounding_space_ignored ws1 out ws2 :
  forallb isspace ws1 = true -> forallb isspace ws2 = true ->
  staged_files (ws1 ++ out ++ ws2) = staged_files out.
Proof.
  intros H1 H2. unfold staged_files.
  rewrite (strip_surround ws1 out ws2 H1 H2). reflexivity.
Qed.

Lemma surrounding_space_ignored_witness :
  staged_files ([LF; 32] ++ lit "a.py" ++ [LF] ++ lit "b.py" ++ [13; LF; LF])
  = staged_files (lit "a.py" ++ [LF] ++ lit "b.py").
Proof.
  apply (@surrounding_space_ignored [LF; 32] (lit "a.py" ++ [LF] ++ lit "b.py") [13; LF; LF]).
  - reflexivity.
  - reflexivity.
Defined.

(** X9: with the same staged contents and the same standard output, when
    only instances of [Exception] are raised and the warning can be
    written, a listing that holds all the paths of another blocks whenever
    the other does; so the value returned depends on which paths are listed
    and not on their order or on repetitions. *)
Theorem verdict_grows_with_listing git git' console w :
  polite git console -> polite git' console -> warns console ->
  (forall p, git' (git_show p) = git (git_show p)) ->
  incl (listed git) (listed git') ->
  (fst (check_staged_files git console w) = Return false ->
   fst (check_staged_files git' console w) = Return false) /\
  (incl (listed git') (listed git) ->
   fst (check_staged_files git console w) = fst (check_staged_files git' console w)).
Proof.
  intros P P' W Hsame Hincl.
  assert (Hhit : forall f, hit git' console f = hit git console f)
    by (intro f; unfold hit; rewrite Hsame; reflexivity).
  assert (V : forall g g' : argv -> result CompletedProcess,
            (forall f, hit g' console f = hit g console f) ->
            incl (listed g) (listed g') ->
            verdict g' console (listed g') = Next ->
            verdict g console (listed g) = Next).
  { intros g g' Hh Hi Hv. apply verdict_next_iff, Forall_forall.
    intros f Hin. unfold clean. rewrite <- Hh.
    apply verdict_next_iff in Hv. rewrite Forall_forall in Hv.
    apply Hv, Hi, Hin. }
  assert (R : forall g : argv -> result CompletedProcess, polite g console ->
            fst (check_staged_files g console w) =
            Return (match verdict g console (listed g) with
                    | Next => true
                    | _ => false
                    end)).
  { intros g Pg. rewrite check_fst.
    assert (H : forall e, catchable e = true -> fst (raised console e) = Return true).
    { intros e C. unfold raised, handled. rewrite C, (W e). reflexivity. }
    pose proof Pg as [Hg Hc]. unfold ending.
    destruct (g git_diff_cached) as [listing | e] eqn:El.
    - destruct (verdict g console (listed g)) as [| m | e] eqn:Vg.
      + destruct (console passed_msg) as [e |] eqn:Ep; [| reflexivity].
        apply H, (Hc _ _ Ep).
      + reflexivity.
      + destruct (@verdict_polite g console _ Pg e Vg).
    - unfold listed. rewrite El. simpl. apply H, (Hg _ _ El). }
  rewrite (R git P), (R git' P'). split.
  - destruct (verdict git' console (listed git')) eqn:V'; try reflexivity.
    rewrite (V git git' Hhit Hincl V'). discriminate.
  - intro Hincl'.
    destruct (verdict git' console (listed git')) eqn:V',
             (verdict git console (listed git)) eqn:V0; try reflexivity.
    + rewrite (V git git' Hhit Hincl V') in V0. discriminate.
    + rewrite (V git git' Hhit Hincl V') in V0. discriminate.
    + rewrite (V git' git (fun f => eq_sym (Hhit f)) Hincl' V0) in V'. discriminate.
    + rewrite (V git' git (fun f => eq_sym (Hhit f)) Hincl' V0) in V'. discriminate.
Qed.

Lemma verdict_grows_with_listing_witness :
  let files := [(lit "a.py", ok (lit "x = 1"));
                (lit "b.py", ok (lit "PASSWORD = 'opensesame'"))] in
  let git := repo (ok (lit "b.py" ++ [LF] ++ lit "a.py")) files in
  let git' := repo (ok (lit "a.py" ++ [LF] ++ lit "b.py" ++ [LF] ++ lit "a.py")) files in
  (fst (check_staged_files git utf8_stdout fresh) = Return false ->
   fst (check_staged_files git' utf8_stdout fresh) = Return false) /\
  (incl (listed git') (listed git) ->
   fst (check_staged_files git utf8_stdout fresh)
   = fst (check_staged_files git' utf8_stdout fresh)).
Proof.
  intros files git git'.
  apply (@verdict_grows_with_listing git git' utf8_stdout fresh).
  - apply repo_polite; [reflexivity | reflexivity | discriminate].
  - apply repo_polite; [reflexivity | reflexivity | discriminate].
  - intro e. reflexivity.
  - intro p. reflexivity.
  - intros f [<- | [<- | []]]; vm_compute; auto.
Defined.

(** X10: every run starts with the listing command and goes on with [git
    show] for an initial segment of the non-empty paths of the listing, in
    their order, and runs nothing else; a run that returns has printed
    exactly one line, and a run that ends with an exception has printed
    none. *)
Theorem run_shape git console w :
  (exists n,
     calls (snd (check_staged_files git console w)) =
     calls w ++ git_diff_cached :: firstn n (fetched (listed git))) /\
  ((exists ok line,
      fst (check_staged_files git console w) = Return ok /\
      printed (snd (check_staged_files git console w)) = printed w ++ [line]) \/
   (exists e,
      fst (check_staged_files git console w) = Raise e /\
      printed (snd (check_staged_files git console w)) = printed w)).
Proof.
  rewrite check_eq. simpl fst. simpl snd. unfold extend. simpl calls. simpl printed.
  split.
  - destruct (visited_prefix git console (listed git)) as (n & ->).
    exists n. reflexivity.
  - assert (R : forall e,
              (exists ok line, fst (raised console e) = Return ok /\
                 printed w ++ snd (raised console e) = printed w ++ [line]) \/
              (exists e', fst (raised console e) = Raise e' /\
                 printed w ++ snd (raised console e) = printed w)).
    { intro e. unfold raised, handled. destruct (catchable e).
      - destruct (console (error_msg e)) as [e' |]; simpl.
        + right. exists e'. rewrite app_nil_r. auto.
        + left. exists true, (error_msg e). auto.
      - right. exists e. simpl. rewrite app_nil_r. auto. }
    unfold ending. destruct (git git_diff_cached) as [listing | e]; [| apply R].
    destruct (verdict git console (listed git)) as [| m | e].
    + destruct (console passed_msg) as [e |]; [apply R |].
      left. exists true, passed_msg. auto.
    + left. exists false, m. auto.
    + right. exists e. simpl. rewrite app_nil_r. auto.
Qed.

(** X12: when every path before [f] in the listing lets the loop go on, a
    rule matches the fetched content of [f] and the message can be written,
    the run is the listing command, [git show] for the non-empty paths
    before [f] in their order and for [f], and nothing after it; the one
    line printed is the cross mark, the words of the first rule that
    matches (Rule A before Rule B) and the path [f]; [False] is returned
    and the process exits with status 1. *)
Theorem first_printed_match_stops git console listing pre f post shown w :
  git git_diff_cached = Return listing ->
  staged_files (stdout listing) = pre ++ f :: post ->
  Forall (clean git console) pre ->
  truthy f = true -> git (git_show f) = Return shown ->
  search api_key_re (stdout shown) || search password_re (stdout shown) = true ->
  console ([10060] ++ (if search api_key_re (stdout shown)
                       then lit " Potential API key found in "
                       else lit " Potential hardcoded password in ") ++ f) = None ->
  check_staged_files git console w =
    (Return false,
     extend (git_diff_cached :: fetched pre ++ [git_show f])
            [[10060] ++ (if search api_key_re (stdout shown)
                         then lit " Potential API key found in "
                         else lit " Potential hardcoded password in ") ++ f] w) /\
  fst (main git console w) = Exited 1.
Proof.
  intros Hl Hfiles Hpre Ht Hs Hm Hc.
  assert (Hh : hit git console f =
               Block ([10060] ++ (if search api_key_re (stdout shown)
                                  then lit " Potential API key found in "
                                  else lit " Potential hardcoded password in ") ++ f)).
  { rewrite (@hit_of_match git console f shown Ht Hs Hm).
    - destruct (search api_key_re (stdout shown)); reflexivity.
    - destruct (search api_key_re (stdout shown)); exact Hc. }
  destruct (@verdict_first_stop git console pre f post Hpre) as [Hv Hvis];
    [rewrite Hh; discriminate |].
  assert (E : check_staged_files git console w =
    (Return false,
     extend (git_diff_cached :: fetched pre ++ [git_show f])
            [[10060] ++ (if search api_key_re (stdout shown)
                         then lit " Potential API key found in "
                         else lit " Potential hardcoded password in ") ++ f] w)).
  { rewrite check_eq, (@ending_return git console listing Hl).
    rewrite (@listed_return git listing Hl), Hfiles, Hv, Hvis, Hh.
    unfold fetched at 2. simpl. rewrite Ht. reflexivity. }
  split; [exact E |]. rewrite (@main_of_check git console false w _ E). reflexivity.
Qed.

Lemma first_printed_match_stops_witness :
  let key := lit "sk-" ++ lit "0123456789abcdefghijABCDEFGHIJ" in
  let git := repo (ok (lit "a.py" ++ [LF] ++ lit "b.py" ++ [LF] ++ lit "c.py" ++ [LF]))
                  [(lit "a.py", ok (lit "print('hello')"));
                   (lit "b.py", ok (lit "password = '" ++ key ++ lit "'"));
                   (lit "c.py", ok (lit "token = '" ++ key ++ lit "'"))] in
  check_staged_files git utf8_stdout fresh =
    (Return false,
     extend [git_diff_cached; git_show (lit "a.py"); git_show (lit "b.py")]
            [[10060] ++ lit " Potential API key found in b.py"] fresh) /\
  fst (main git utf8_stdout fresh) = Exited 1.
Proof.
  intros key git.
  apply (@first_printed_match_stops git utf8_stdout
           {| returncode := 0;
              stdout := lit "a.py" ++ [LF] ++ lit "b.py" ++ [LF] ++ lit "c.py" ++ [LF] |}
           [lit "a.py"] (lit "b.py") [lit "c.py"]
           {| returncode := 0; stdout := lit "password = '" ++ key ++ lit "'" |} fresh).
  - reflexivity.
  - reflexivity.
  - constructor; [reflexivity | constructor].
  - reflexivity.
  - reflexivity.
  - reflexivity.
  - reflexivity.
Defined.

(* ================================================================== *)
(** * The scenarios of the specification *)
(* ================================================================== *)

Example scenario_config_py :
  let content := lit "API_KEY = " ++ [dquote] ++ lit "sk-abcdefghijklmnopqrstuvwxyz" ++ [dquote] in
  main (repo (ok (lit "config.py" ++ [LF])) [(lit "config.py", ok content)]) utf8_stdout fresh
  = (Exited 1,
     {| calls := [git_diff_cached; git_show (lit "config.py")];
        printed := [api_key_msg (lit "config.py")] |}).
Proof. vm_compute. reflexivity. Qed.

Example scenario_short_password :
  let content := lit "password = " ++ [dquote] ++ lit "short1" ++ [dquote] in
  main (repo (ok (lit "app.py" ++ [LF])) [(lit "app.py", ok content)]) utf8_stdout fresh
  = (Exited 0,
     {| calls := [git_diff_cached; git_show (lit "app.py")];
        printed := [passed_msg] |}).
Proof. vm_compute. reflexivity. Qed.

Example scenario_long_password :
  let content := lit "password = " ++ [dquote] ++ lit "longenough1" ++ [dquote] in
  main (repo (ok (lit "app.py" ++ [LF])) [(lit "app.py", ok content)]) utf8_stdout fresh
  = (Exited 1,
     {| calls := [git_diff_cached; git_show (lit "app.py")];
        printed := [password_msg (lit "app.py")] |}).
Proof. vm_compute. reflexivity. Qed.

Example scenario_second_file :
  let git := repo (ok (lit "a.txt" ++ [LF] ++ lit "b.txt" ++ [LF]))
                  [(lit "a.txt", ok (lit "nothing to see"));
                   (lit "b.txt", ok (lit "sk-" ++ lit "AAAAAAAAAAaaaaaaaaaa0123"))] in
  main git utf8_stdout fresh
  = (Exited 1,
     {| calls := [git_diff_cached; git_show (lit "a.txt"); git_show (lit "b.txt")];
        printed := [api_key_msg (lit "b.txt")] |}).
Proof. vm_compute. reflexivity. Qed.

Example scenario_listing_raises :
  main (repo (Raise (Exception (lit "boom"))) []) utf8_stdout fresh
  = (Exited 0,
     {| calls := [git_diff_cached];
        printed := [error_msg (Exception (lit "boom"))] |}).
Proof. vm_compute. reflexivity. Qed.

(** A quoted string that holds the other quote character is cut by it:
    nine characters between the double quotes, and no run of eight. *)
Example password_inner_quote :
  search password_re (lit "password = " ++ [dquote] ++ lit "abcd'efgh" ++ [dquote]) = false.
Proof. vm_compute. reflexivity. Qed.

(** Nineteen characters after [sk-] are not enough; the prefix is matched
    in lower case only. *)
Example api_key_19 :
  search api_key_re (lit "sk-abcdefghijklmnopqrs") = false /\
  search api_key_re (lit "SK-abcdefghijklmnopqrstuvwxyz") = false.
Proof. vm_compute. split; reflexivity. Qed.

(** The token of Rule B in another case, and with the long s. *)
Example password_any_case :
  search password_re (lit "PassWord='longenough1'") = true /\
  search password_re (lit "pa" ++ [383; 383] ++ lit "word='longenough1'") = true.
Proof. vm_compute. split; reflexivity. Qed.

Example strip_split :
  staged_files ([LF] ++ lit "  a.py" ++ [LF; LF] ++ lit "dir/b c.py " ++ [LF])
  = [lit "a.py"; []; lit "dir/b c.py"].
Proof. vm_compute. reflexivity. Qed.
